(** * Document summariser: chunking and hierarchical summarisation

    A shallow embedding of [src/app.py]: the chunker [chunk_text], the
    summarisation pipeline [summarize_text], the text extractors and
    the page [main], with their properties.

    Python strings are sequences of Unicode code points; a code point is
    a natural number ([N]) and a string a list of them.  Python integers
    are unbounded, so lengths and budgets live in [Z]. *)

From Stdlib Require Import List ZArith NArith Lia Bool Ascii.
From Stdlib Require String.
From Stdlib.Strings Require Byte.
Import String.StringSyntax.
Import ListNotations.
Open Scope Z_scope.

(** ** Python strings *)

Module PyStr.

Definition char := N.
Definition str := list char.

(** A literal of the source, code point by code point. *)
Fixpoint lit (s : String.string) : str :=
  match s with
  | String.EmptyString => []
  | String.String a s' => N_of_ascii a :: lit s'
  end.
Arguments lit s%_string_scope.

(** [str.isspace] on one code point: the characters CPython's
    [Py_UNICODE_ISSPACE] accepts.  [str.split()] and [str.strip()] both
    use this predicate. *)
Definition isspace (c : char) : bool :=
  ((9 <=? c) && (c <=? 13) ||
   (28 <=? c) && (c <=? 32) ||
   (c =? 133) || (c =? 160) || (c =? 5760) ||
   (8192 <=? c) && (c <=? 8202) ||
   (c =? 8232) || (c =? 8233) || (c =? 8239) || (c =? 8287) ||
   (c =? 12288))%N.

(** [len(s)] *)
Definition len {A} (s : list A) : Z := Z.of_nat (length s).

(** [s.split()]: the maximal runs of non-whitespace characters of [s],
    in order.  A non-whitespace character either ends a word (the text
    ends, or whitespace follows) or is prepended to the word that starts
    at the next character. *)
Fixpoint split (s : str) : list str :=
  match s with
  | [] => []
  | c :: s' =>
      if isspace c then split s'
      else match s' with
           | [] => [[c]]
           | d :: _ =>
               if isspace d then [c] :: split s'
               else match split s' with
                    | w :: ws => (c :: w) :: ws
                    | [] => [[c]]
                    end
           end
  end.

(** [s.lstrip()], [s.rstrip()], [s.strip()] *)
Fixpoint lstrip (s : str) : str :=
  match s with
  | [] => []
  | c :: s' => if isspace c then lstrip s' else s
  end.

Definition rstrip (s : str) : str := rev (lstrip (rev s)).

Definition strip (s : str) : str := rstrip (lstrip s).

(** [sep.join(l)] *)
Fixpoint join (sep : str) (l : list str) : str :=
  match l with
  | [] => []
  | [x] => x
  | x :: xs => x ++ sep ++ join sep xs
  end.

(** The separator [" "] of the source. *)
Definition SP : str := lit " ".

(** Truthiness of a list or string: non-empty. *)
Definition truthy {A} (l : list A) : bool :=
  match l with [] => false | _ :: _ => true end.

End PyStr.

Import PyStr.

(** ** [chunk_text] *)

(** The three variables the loop of [chunk_text] updates. *)
Record chunker := {
  chunks : list str;
  current_chunk : list str;
  current_length : Z
}.

(** [if current_chunk: chunks.append(" ".join(current_chunk))] *)
Definition flush (chunks : list str) (current_chunk : list str) : list str :=
  if truthy current_chunk then chunks ++ [join SP current_chunk] else chunks.

(** One iteration of [for word in words]. *)
Definition chunk_step (max_length : Z) (st : chunker) (word : str) : chunker :=
  let word_length := len word + 1 in
  if current_length st + word_length >? max_length then
    {| chunks := flush (chunks st) (current_chunk st);
       current_chunk := [word];
       current_length := word_length |}
  else
    {| chunks := chunks st;
       current_chunk := current_chunk st ++ [word];
       current_length := current_length st + word_length |}.

Definition chunk_text (text : str) (max_length : Z) : list str :=
  let words := split text in
  let st := fold_left (chunk_step max_length) words
              {| chunks := []; current_chunk := []; current_length := 0 |} in
  flush (chunks st) (current_chunk st).

(** ** The summarisation primitive and the effects of [summarize_text] *)

(** What one call of the primitive does: it returns a summary text, or
    it raises. *)
Inductive outcome :=
| Success (summary_text : str)
| SummarizationFailure.

(** The primitive is external and may behave differently at each call:
    its outcome depends on how many calls came before, on the text and
    on the two length parameters it is given. *)
Definition primitive := nat -> str -> Z -> Z -> outcome.

(** What a run leaves behind: the texts the primitive was called on, in
    call order, and the number of warnings shown by [st.warning]. *)
Record world := {
  calls : list str;
  warnings : nat
}.

Definition idle : world := {| calls := []; warnings := 0 |}.

(** A computation returns a value or raises an exception to its caller,
    and changes the world on the way. *)
Inductive result (A : Type) :=
| Return (a : A)
| Raise.
Arguments Return {A} a.
Arguments Raise {A}.

Definition M (A : Type) : Type := world -> result A * world.

Definition ret {A} (a : A) : M A := fun w => (Return a, w).

Definition bind {A B} (m : M A) (k : A -> M B) : M B :=
  fun w => match m w with
           | (Return a, w') => k a w'
           | (Raise, w') => (Raise, w')
           end.

(** [try: body / except: handler] *)
Definition try_except {A} (body handler : M A) : M A :=
  fun w => match body w with
           | (Return a, w') => (Return a, w')
           | (Raise, w') => handler w'
           end.

Notation "x <- m ;; k" := (bind m (fun x => k))
  (at level 61, m at next level, right associativity).

(** [summarizer(text, max_length=..., min_length=...,
    do_sample=False)[0]['summary_text']]: one call of the primitive,
    recorded in the world; a failure of the primitive is an exception
    raised at the call. *)
Definition invoke (summarizer : primitive) (text : str)
    (max_length min_length : Z) : M str :=
  fun w =>
    let w' := {| calls := calls w ++ [text]; warnings := warnings w |} in
    match summarizer (length (calls w)) text max_length min_length with
    | Success summary_text => (Return summary_text, w')
    | SummarizationFailure => (Raise, w')
    end.

(** [st.warning(...)]: the page shows one more warning. *)
Definition st_warning : M unit :=
  fun w => (Return tt, {| calls := calls w; warnings := S (warnings w) |}).

(** ** [summarize_text] *)

Definition TOO_SHORT : str := lit "Text is too short to summarize.".
Definition UNABLE : str := lit "Unable to generate summary.".

(** The body of [for chunk in chunks], from the list [summaries] before
    the iteration to the list after it. *)
Definition summarize_chunk (summarizer : primitive) (max_length min_length : Z)
    (summaries : list str) (chunk : str) : M (list str) :=
  if len (strip chunk) <? 50 then ret summaries
  else
    try_except
      (summary <- invoke summarizer chunk max_length min_length ;;
       ret (summaries ++ [summary]))
      (_ <- st_warning ;;
       ret summaries).

(** [for chunk in chunks: ...] *)
Fixpoint summarize_chunks (summarizer : primitive) (max_length min_length : Z)
    (chunks : list str) (summaries : list str) : M (list str) :=
  match chunks with
  | [] => ret summaries
  | chunk :: rest =>
      summaries' <-
        summarize_chunk summarizer max_length min_length summaries chunk ;;
      summarize_chunks summarizer max_length min_length rest summaries'
  end.

(** The part of [summarize_text] after the loop. *)
Definition combine (summarizer : primitive) (max_length min_length : Z)
    (summaries : list str) : M str :=
  if truthy summaries then
    let combined_summary := join SP summaries in
    if len (split combined_summary) >? 200 then
      try_except
        (invoke summarizer combined_summary max_length min_length)
        (ret combined_summary)
    else ret combined_summary
  else ret UNABLE.

Definition summarize_text (text : str) (summarizer : primitive)
    (max_length min_length : Z) : M str :=
  if negb (truthy text) || (len (strip text) <? 50) then ret TOO_SHORT
  else
    let chunks := chunk_text text 1024 in
    summaries <- summarize_chunks summarizer max_length min_length chunks [] ;;
    combine summarizer max_length min_length summaries.

(** ** The per-chunk phase, as the specification words it

    Each chunk meets one of three fates: it is skipped because it is too
    short, it is summarised, or the primitive fails on it.  [n] counts
    the calls of the primitive made before the chunk. *)

Inductive fate :=
| Skipped
| Summarized (summary : str)
| Failed.

Fixpoint fates (summarizer : primitive) (max_length min_length : Z)
    (n : nat) (chunks : list str) : list fate :=
  match chunks with
  | [] => []
  | chunk :: rest =>
      if len (strip chunk) <? 50 then
        Skipped :: fates summarizer max_length min_length n rest
      else
        match summarizer n chunk max_length min_length with
        | Success s =>
            Summarized s :: fates summarizer max_length min_length (S n) rest
        | SummarizationFailure =>
            Failed :: fates summarizer max_length min_length (S n) rest
        end
  end.

(** What a chunk contributes to the list of summaries. *)
Definition contribution (f : fate) : list str :=
  match f with
  | Summarized s => [s]
  | Skipped | Failed => []
  end.

(** The calls of the primitive a chunk causes. *)
Definition invocations (chunk : str) (f : fate) : list str :=
  match f with
  | Skipped => []
  | Summarized _ | Failed => [chunk]
  end.

Definition failures (f : fate) : nat :=
  match f with
  | Failed => 1%nat
  | Skipped | Summarized _ => 0%nat
  end.

Fixpoint invoked (chunks : list str) (fs : list fate) : list str :=
  match chunks, fs with
  | chunk :: chunks', f :: fs' => invocations chunk f ++ invoked chunks' fs'
  | _, _ => []
  end.

Definition produced (fs : list fate) : list str := flat_map contribution fs.

Definition failed (fs : list fate) : nat := list_sum (map failures fs).

(** ** Words and groups of words *)

(** A word: a non-empty run of non-whitespace characters. *)
Definition is_word (w : str) : Prop :=
  w <> [] /\ Forall (fun c => isspace c = false) w.

(** What a group of words costs the chunker: each word and one
    separator. *)
Fixpoint cost (g : list str) : Z :=
  match g with
  | [] => 0
  | w :: g' => len w + 1 + cost g'
  end.

(** A group the chunker may close: it holds a word, and it either fits
    the budget or is a single word. *)
Definition group_ok (B : Z) (g : list str) : Prop :=
  g <> [] /\ (cost g <= B \/ exists w, g = [w]).

(** The chunker's state after the words [pre]: the closed chunks render
    closed groups, the groups and the open group hold [pre] in order,
    and the running length is the cost of the open group. *)
Definition chunker_inv (B : Z) (pre : list str) (st : chunker) : Prop :=
  exists gs,
    chunks st = map (join SP) gs /\
    Forall (group_ok B) gs /\
    concat gs ++ current_chunk st = pre /\
    current_length st = cost (current_chunk st) /\
    (current_chunk st = [] \/ group_ok B (current_chunk st)).

(** A string whose first character is not whitespace. *)
Definition starts_nonspace (s : str) : Prop :=
  match s with
  | [] => False
  | c :: _ => isspace c = false
  end.

(** The world [w] after the calls [cs] and [k] warnings. *)
Definition after (w : world) (cs : list str) (k : nat) : world :=
  {| calls := calls w ++ cs; warnings := warnings w + k |}.

(** Every call of the primitive made between two worlds failed. *)
Definition every_call_fails (summarizer : primitive) (a b : Z)
    (w w' : world) : Prop :=
  forall i c,
    nth_error (calls w') (length (calls w) + i) = Some c ->
    summarizer (length (calls w) + i)%nat c a b = SummarizationFailure.

(** ** Inputs and primitives used as instances *)

(** One word of sixty letters. *)
Definition long_word : str := repeat 97%N 60.

(** Two one-letter words a hundred spaces apart. *)
Definition sparse_text : str := lit "a" ++ repeat 32%N 100 ++ lit "b".

(** A summary of 201 words. *)
Definition verbose_text : str := join SP (repeat (lit "w") 201).

Definition always_fails : primitive :=
  fun _ _ _ _ => SummarizationFailure.

Definition verbose : primitive :=
  fun _ _ _ _ => Success verbose_text.

Definition verbose_once : primitive :=
  fun n _ _ _ =>
    match n with
    | O => Success verbose_text
    | S _ => SummarizationFailure
    end.

(** Twenty words of sixty letters: two chunks under the budget 1024. *)
Definition two_chunk_text : str := join SP (repeat long_word 20).

(** A primitive that numbers its summaries. *)
Definition numbered : primitive :=
  fun n _ _ _ =>
    match n with
    | O => Success (lit "first")
    | S _ => Success (lit "second")
    end.

(** C3 as it is worded: whenever every chunk is too short or every call
    of the primitive fails, the run returns the no-summary message. *)
Definition no_summary_claim (text : str) (summarizer : primitive)
    (max_length min_length : Z) (w : world) : Prop :=
  let run := summarize_text text summarizer max_length min_length w in
  (exists s w', run = (Return s, w')) /\
  (Forall (fun c => len (strip c) < 50) (chunk_text text 1024) \/
   every_call_fails summarizer max_length min_length w (snd run) ->
   fst run = Return UNABLE).

(** A primitive that fails at its first call only. *)
Definition fails_first : primitive :=
  fun n _ _ _ =>
    match n with
    | O => SummarizationFailure
    | S _ => Success (lit "second")
    end.

(** ** The groups behind the chunks

    [pack] follows the loop of [chunk_text] word by word and keeps the
    groups of words instead of their renderings: the chunks are the
    groups of [pack], each joined by single spaces. *)
Fixpoint pack (B : Z) (current_chunk : list str) (current_length : Z)
    (words : list str) : list (list str) :=
  match words with
  | [] => if truthy current_chunk then [current_chunk] else []
  | word :: rest =>
      if current_length + (len word + 1) >? B then
        (if truthy current_chunk then [current_chunk] else [])
        ++ pack B [word] (len word + 1) rest
      else
        pack B (current_chunk ++ [word]) (current_length + (len word + 1)) rest
  end.

(** Each group was closed because the first word of the next one did
    not fit. *)
Fixpoint greedy (B : Z) (gs : list (list str)) : Prop :=
  match gs with
  | g :: ((h :: _) as rest) =>
      match h with
      | [] => False
      | w :: _ => B < cost g + (len w + 1)
      end /\ greedy B rest
  | _ => True
  end.

(** A chunk the loop of [summarize_text] does not skip. *)
Definition viable (chunk : str) : bool := negb (len (strip chunk) <? 50).

(** A primitive that returns the text it is given. *)
Definition echo : primitive := fun _ text _ _ => Success text.

(** ** Text extraction

    The content of an uploaded file is a sequence of bytes.  The file
    object handed to the extractors either lets itself be rewound and
    read, or raises when it is (a closed file, say). *)

Definition bytes := list Byte.byte.

Inductive file_obj :=
| Readable (content : bytes)
| Unreadable.

(** The messages of [st.error]; the text of the exception that some of
    them quote is left out. *)
Inductive error_message :=
| Error_loading_model
| Error_reading_PDF
| Error_reading_Word
| Error_reading_text
| Unsupported_file_type (file_type : str)
| Failed_to_load_model
| Failed_to_extract.

(** What a run of the page puts on the screen, top to bottom. *)
Inductive event :=
| st_title
| st_markdown
| st_error (message : error_message)
| st_stop
| st_file_uploader
| st_info_name (name : str)
| st_info_size (size : Z)
| st_text_area (text : str)
| st_subheader_settings
| st_slider_max
| st_slider_min
| st_button
| st_subheader_summary
| st_success (summary : str)
| st_download_button (data : str) (file_name : str).

(** The newline the extractors put after each page or paragraph. *)
Definition NL : str := [10%N].

(** *** Codecs: [bytes.decode(encoding)], [None] for
    [UnicodeDecodeError] *)

Inductive encoding := utf_8 | latin_1 | cp1252.

(** A UTF-8 continuation byte. *)
Definition continuation (b : N) : bool := ((128 <=? b) && (b <=? 191))%N.

(** Strict UTF-8: shortest forms only, no surrogates, nothing above
    U+10FFFF. *)
Fixpoint utf8_decode (bs : bytes) : option str :=
  match bs with
  | [] => Some []
  | x0 :: r0 =>
      let b0 := Byte.to_N x0 in
      if (b0 <? 128)%N then option_map (cons b0) (utf8_decode r0)
      else if (b0 <? 194)%N then None
      else if (b0 <? 224)%N then
        match r0 with
        | x1 :: r1 =>
            let b1 := Byte.to_N x1 in
            if continuation b1 then
              option_map (cons ((b0 - 192) * 64 + (b1 - 128))%N)
                         (utf8_decode r1)
            else None
        | _ => None
        end
      else if (b0 <? 240)%N then
        match r0 with
        | x1 :: x2 :: r2 =>
            let b1 := Byte.to_N x1 in
            let b2 := Byte.to_N x2 in
            let lo := (if b0 =? 224 then 160 else 128)%N in
            let hi := (if b0 =? 237 then 159 else 191)%N in
            if ((lo <=? b1) && (b1 <=? hi))%N && continuation b2 then
              option_map
                (cons ((b0 - 224) * 4096 + (b1 - 128) * 64 + (b2 - 128))%N)
                (utf8_decode r2)
            else None
        | _ => None
        end
      else if (b0 <? 245)%N then
        match r0 with
        | x1 :: x2 :: x3 :: r3 =>
            let b1 := Byte.to_N x1 in
            let b2 := Byte.to_N x2 in
            let b3 := Byte.to_N x3 in
            let lo := (if b0 =? 240 then 144 else 128)%N in
            let hi := (if b0 =? 244 then 143 else 191)%N in
            if ((lo <=? b1) && (b1 <=? hi))%N && continuation b2
               && continuation b3 then
              option_map
                (cons ((b0 - 240) * 262144 + (b1 - 128) * 4096
                       + (b2 - 128) * 64 + (b3 - 128))%N)
                (utf8_decode r3)
            else None
        | _ => None
        end
      else None
  end.

(** Latin-1: every byte is the code point of the same number. *)
Definition latin1_decode (bs : bytes) : option str :=
  Some (map Byte.to_N bs).

(** Windows-1252: Latin-1 but for 0x80..0x9F, where 27 bytes stand for
    other characters and 5 bytes stand for nothing. *)
Definition cp1252_char (b : N) : option char :=
  (if (b <? 128) || (160 <=? b) then Some b
   else match b with
        | 128 => Some 8364 | 130 => Some 8218 | 131 => Some 402
        | 132 => Some 8222 | 133 => Some 8230 | 134 => Some 8224
        | 135 => Some 8225 | 136 => Some 710 | 137 => Some 8240
        | 138 => Some 352 | 139 => Some 8249 | 140 => Some 338
        | 142 => Some 381 | 145 => Some 8216 | 146 => Some 8217
        | 147 => Some 8220 | 148 => Some 8221 | 149 => Some 8226
        | 150 => Some 8211 | 151 => Some 8212 | 152 => Some 732
        | 153 => Some 8482 | 154 => Some 353 | 155 => Some 8250
        | 156 => Some 339 | 158 => Some 382 | 159 => Some 376
        | _ => None
        end)%N.

Fixpoint cp1252_decode (bs : bytes) : option str :=
  match bs with
  | [] => Some []
  | x :: rest =>
      match cp1252_char (Byte.to_N x) with
      | Some c => option_map (cons c) (cp1252_decode rest)
      | None => None
      end
  end.

Definition decode (e : encoding) (content : bytes) : option str :=
  match e with
  | utf_8 => utf8_decode content
  | latin_1 => latin1_decode content
  | cp1252 => cp1252_decode content
  end.

(** *** [extract_text_from_txt] *)

(** [for encoding in encodings: try: ... return file.read().decode(encoding)
    / except UnicodeDecodeError: continue], then [return None]. *)
Fixpoint try_encodings (encodings : list encoding) (content : bytes)
  : option str :=
  match encodings with
  | [] => None
  | e :: rest =>
      match decode e content with
      | Some text => Some text
      | None => try_encodings rest content
      end
  end.

(** The value returned ([None] is Python's [None]) and what is put on
    the screen.  An unreadable file raises at [file.seek(0)], past the
    inner handler and into the outer one. *)
Definition extract_text_from_txt (file : file_obj)
  : option str * list event :=
  match file with
  | Readable content => (try_encodings [utf_8; latin_1; cp1252] content, [])
  | Unreadable => (None, [st_error Error_reading_text])
  end.

(** *** The document libraries

    [PdfReader] stands for PyPDF2: opening the file raises ([None]) or
    gives the pages, and [extract_text()] of a page raises ([None]) or
    gives its text.  [Document] stands for python-docx: opening raises
    or gives the texts of the paragraphs. *)
Record library := {
  PdfReader : file_obj -> option (list (option str));
  Document : file_obj -> option (list str)
}.

(** [for page in pdf_reader.pages: text += page.extract_text() + "\n"];
    [None] when a page raises. *)
Fixpoint read_pages (pages : list (option str)) (text : str) : option str :=
  match pages with
  | [] => Some text
  | Some page_text :: rest => read_pages rest (text ++ (page_text ++ NL))
  | None :: _ => None
  end.

Definition extract_text_from_pdf (lib : library) (file : file_obj)
  : option str * list event :=
  match PdfReader lib file with
  | Some pages =>
      match read_pages pages [] with
      | Some text => (Some text, [])
      | None => (None, [st_error Error_reading_PDF])
      end
  | None => (None, [st_error Error_reading_PDF])
  end.

Definition extract_text_from_docx (lib : library) (file : file_obj)
  : option str * list event :=
  match Document lib file with
  | Some paragraphs =>
      (Some (fold_left (fun text paragraph => text ++ (paragraph ++ NL))
                       paragraphs []), [])
  | None => (None, [st_error Error_reading_Word])
  end.

(** *** [extract_text] *)

(** [==] on strings. *)
Fixpoint str_eqb (s t : str) : bool :=
  match s, t with
  | [], [] => true
  | c :: s', d :: t' => (c =? d)%N && str_eqb s' t'
  | _, _ => false
  end.

Definition PDF : str := lit "application/pdf".
Definition DOCX : str :=
  lit "application/vnd.openxmlformats-officedocument.wordprocessingml.document".
Definition TXT : str := lit "text/plain".

Definition extract_text (lib : library) (file : file_obj) (file_type : str)
  : option str * list event :=
  if str_eqb file_type PDF then extract_text_from_pdf lib file
  else if str_eqb file_type DOCX then extract_text_from_docx lib file
  else if str_eqb file_type TXT then extract_text_from_txt file
  else (None, [st_error (Unsupported_file_type file_type)]).

(** ** [load_summarizer] and [main] *)

(** [pipeline(...)] gives the primitive or raises ([None]); the cache
    that [st.cache_resource] puts in front of the function is outside
    the run. *)
Definition load_summarizer (pipeline : option primitive)
  : option primitive * list event :=
  match pipeline with
  | Some summarizer => (Some summarizer, [])
  | None => (None, [st_error Error_loading_model])
  end.

(** The uploaded file as the page sees it. *)
Record upload := {
  upload_name : str;
  upload_size : Z;
  upload_type : str;
  upload_file : file_obj
}.

(** What one run of the page depends on: whether the model loads, the
    file in the uploader if any, the two sliders and the button. *)
Record session := {
  pipeline : option primitive;
  uploaded_file : option upload;
  slider_max_length : Z;
  slider_min_length : Z;
  button_pressed : bool
}.

(** One run of [main]: what is put on the screen, and the world after
    it.  [st.stop()] ends the run; so would an exception out of
    [summarize_text]. *)
Definition main (lib : library) (s : session) (w : world)
  : list event * world :=
  let (summarizer, loading) := load_summarizer (pipeline s) in
  let top := [st_title; st_markdown] ++ loading in
  match summarizer with
  | None => (top ++ [st_error Failed_to_load_model; st_stop], w)
  | Some summarizer =>
      match uploaded_file s with
      | None => (top ++ [st_file_uploader], w)
      | Some up =>
          let (text, extracting) :=
            extract_text lib (upload_file up) (upload_type up) in
          let shown :=
            top ++ [st_file_uploader;
                    st_info_name (upload_name up);
                    st_info_size (upload_size up)] ++ extracting in
          match text with
          | Some ((_ :: _) as text) =>
              let settings :=
                [st_text_area text; st_subheader_settings;
                 st_slider_max; st_slider_min; st_button] in
              if button_pressed s then
                match summarize_text text summarizer
                        (slider_max_length s) (slider_min_length s) w with
                | (Return summary, w') =>
                    (shown ++ settings ++
                     [st_subheader_summary;
                      st_success summary;
                      st_download_button
                        summary (upload_name up ++ lit "_summary.txt")],
                     w')
                | (Raise, w') => (shown ++ settings, w')
                end
              else (shown ++ settings, w)
          | Some [] | None => (shown ++ [st_error Failed_to_extract], w)
          end
      end
  end.

(** ** Instances for the extraction and the page *)

(** A library that opens nothing. *)
Definition no_library : library :=
  {| PdfReader := fun _ => None; Document := fun _ => None |}.

(** The bytes of a string of the source. *)
Fixpoint ascii_bytes (s : String.string) : bytes :=
  match s with
  | String.EmptyString => []
  | String.String a s' => byte_of_ascii a :: ascii_bytes s'
  end.
Arguments ascii_bytes s%_string_scope.

(** A library that reads two pages and two paragraphs. *)
Definition two_pages : library :=
  {| PdfReader := fun _ => Some [Some (lit "first page"); Some (lit "second")];
     Document := fun _ => Some [lit "one"; lit "two words"] |}.

(** A library that fails on the second page. *)
Definition torn_page : library :=
  {| PdfReader := fun _ => Some [Some (lit "first page"); None];
     Document := fun _ => None |}.


(** An upload of the given type and content, sent with the button
    pressed and the sliders where the page first puts them. *)
Definition pressed (summarizer : primitive) (file_type : str)
    (content : bytes) : session :=
  {| pipeline := Some summarizer;
     uploaded_file :=
       Some {| upload_name := lit "notes";
               upload_size := len content;
               upload_type := file_type;
               upload_file := Readable content |};
     slider_max_length := 130;
     slider_min_length := 30;
     button_pressed := true |}.

(** ** The functions on small inputs *)

Example split_demo :
  split (lit "  a  bc" ++ [9; 10]%N ++ lit "d ") = [lit "a"; lit "bc"; lit "d"].
Proof. reflexivity. Qed.

Example strip_demo : strip (lit "  a b  ") = lit "a b".
Proof. reflexivity. Qed.

Example chunk_text_empty : chunk_text [] 1024 = [].
Proof. reflexivity. Qed.

Example summarize_text_after_a_failure :
  summarize_text two_chunk_text fails_first 130 30 idle
  = (Return (lit "second"),
     {| calls := chunk_text two_chunk_text 1024; warnings := 1 |}).
Proof. vm_compute. reflexivity. Qed.

Example chunk_text_demo :
  chunk_text (lit "  the quick  brown fox ") 10
  = [lit "the quick"; lit "brown fox"].
Proof. reflexivity. Qed.

(** ** Strings: facts about [split], [join] and [strip] *)

Lemma len_nonneg {A} (s : list A) : 0 <= len s.
Proof. unfold len. lia. Qed.

Lemma len_cons {A} (c : A) (s : list A) : len (c :: s) = len s + 1.
Proof. unfold len. cbn [length]. lia. Qed.

Lemma len_app {A} (s t : list A) : len (s ++ t) = len s + len t.
Proof. unfold len. rewrite length_app. lia. Qed.

Lemma split_space (c : char) (s : str) :
  isspace c = true -> split (c :: s) = split s.
Proof. intros H. simpl. now rewrite H. Qed.

(** A word followed by nothing or by whitespace is the first word. *)
Lemma split_word_then (w s : str) :
  is_word w ->
  (s = [] \/ exists c s', s = c :: s' /\ isspace c = true) ->
  split (w ++ s) = w :: split s.
Proof.
  intros [Hne Hall] Hs. induction w as [|c w IH]; [congruence|].
  inversion Hall as [|? ? Hc Hw]; subst.
  destruct w as [|d w].
  - simpl. rewrite Hc. destruct Hs as [->|(e & s' & -> & He)]; [reflexivity|].
    rewrite He. reflexivity.
  - inversion Hw as [|? ? Hd _]; subst.
    change ((c :: d :: w) ++ s) with (c :: (d :: w) ++ s).
    cbn [split]. rewrite Hc.
    change ((d :: w) ++ s) with (d :: w ++ s) at 1. cbv beta iota.
    rewrite Hd. rewrite IH by (congruence || assumption). reflexivity.
Qed.

Lemma split_words (s : str) : Forall is_word (split s).
Proof.
  induction s as [|c s IH]; [constructor|].
  cbn [split]. destruct (isspace c) eqn:Hc; [assumption|].
  destruct s as [|d s].
  - repeat constructor; congruence.
  - destruct (isspace d) eqn:Hd.
    + constructor; [|assumption]. repeat constructor; congruence.
    + destruct (split (d :: s)) as [|w ws].
      * repeat constructor; congruence.
      * inversion IH as [|? ? [Hne Hw] Hws]; subst.
        constructor; [|assumption]. split; [congruence|]. now constructor.
Qed.

Lemma split_join (ws : list str) :
  Forall is_word ws -> split (join SP ws) = ws.
Proof.
  induction 1 as [|x ws Hx Hws IH]; [reflexivity|].
  destruct ws as [|y ws].
  - simpl. rewrite <- (app_nil_r x) at 1.
    rewrite split_word_then; auto.
  - change (join SP (x :: y :: ws)) with (x ++ SP ++ join SP (y :: ws)).
    rewrite split_word_then; auto.
    + change (SP ++ join SP (y :: ws)) with (32%N :: join SP (y :: ws)).
      rewrite split_space by reflexivity. now rewrite IH.
    + right. eexists _, _. split; reflexivity.
Qed.

Lemma join_app (sep : str) (a b : list str) :
  a <> [] -> b <> [] ->
  join sep (a ++ b) = join sep a ++ sep ++ join sep b.
Proof.
  intros Ha Hb. induction a as [|x a IH]; [congruence|].
  destruct a as [|y a].
  - simpl. destruct b; [congruence|reflexivity].
  - change (join sep ((x :: y :: a) ++ b))
      with (x ++ sep ++ join sep ((y :: a) ++ b)).
    rewrite IH by congruence.
    change (join sep (x :: y :: a)) with (x ++ sep ++ join sep (y :: a)).
    now rewrite <- !app_assoc.
Qed.

Lemma concat_nonempty {A} (g : list A) (gs : list (list A)) :
  g <> [] -> concat (g :: gs) <> [].
Proof. destruct g; [congruence|]. simpl. congruence. Qed.

(** Joining the rendered groups is joining all their words. *)
Lemma join_groups (gs : list (list str)) :
  Forall (fun g => g <> []) gs ->
  join SP (map (join SP) gs) = join SP (concat gs).
Proof.
  induction 1 as [|g gs Hg Hgs IH]; [reflexivity|].
  destruct gs as [|h gs].
  - simpl. now rewrite app_nil_r.
  - change (map (join SP) (g :: h :: gs))
      with (join SP g :: map (join SP) (h :: gs)).
    change (join SP (join SP g :: map (join SP) (h :: gs)))
      with (join SP g ++ SP ++ join SP (map (join SP) (h :: gs))).
    rewrite IH. change (concat (g :: h :: gs)) with (g ++ concat (h :: gs)).
    rewrite join_app; auto.
    inversion Hgs; subst. now apply concat_nonempty.
Qed.

Lemma len_join (g : list str) :
  g <> [] -> len (join SP g) = cost g - 1.
Proof.
  induction g as [|w g IH]; [congruence|]. intros _.
  destruct g as [|v g].
  - simpl. lia.
  - change (join SP (w :: v :: g)) with (w ++ SP ++ join SP (v :: g)).
    rewrite !len_app, IH by congruence.
    change (len SP) with 1. cbn [cost]. lia.
Qed.

Lemma cost_app (g h : list str) : cost (g ++ h) = cost g + cost h.
Proof. induction g as [|w g IH]; simpl; lia. Qed.

Lemma cost_nonneg (g : list str) : 0 <= cost g.
Proof.
  induction g as [|w g IH]; simpl; [lia|]. pose proof (len_nonneg w). lia.
Qed.

Lemma cost_In (w : str) (g : list str) : In w g -> len w + 1 <= cost g.
Proof.
  induction g as [|v g IH]; simpl; [tauto|].
  pose proof (cost_nonneg g). pose proof (len_nonneg v).
  intros [->|Hin]; [lia|]. specialize (IH Hin). lia.
Qed.

Lemma starts_nonspace_app (s t : str) :
  starts_nonspace s -> starts_nonspace (s ++ t).
Proof. destruct s; simpl; tauto. Qed.

Lemma lstrip_starts_nonspace (s : str) : starts_nonspace s -> lstrip s = s.
Proof. destruct s as [|c s]; simpl; [tauto|]. now intros ->. Qed.

Lemma strip_tight (s : str) :
  starts_nonspace s -> starts_nonspace (rev s) -> strip s = s.
Proof.
  intros Hl Hr. unfold strip, rstrip.
  rewrite (lstrip_starts_nonspace s Hl), (lstrip_starts_nonspace _ Hr).
  apply rev_involutive.
Qed.

Lemma word_starts (w : str) : is_word w -> starts_nonspace w.
Proof.
  intros [Hne Hall]. destruct w; [congruence|]. now inversion Hall.
Qed.

Lemma word_ends (w : str) : is_word w -> starts_nonspace (rev w).
Proof.
  intros [Hne Hall]. apply word_starts. split.
  - intros E. apply (f_equal (@rev _)) in E. rewrite rev_involutive in E.
    now apply Hne.
  - now apply Forall_rev.
Qed.

Lemma join_starts (ws : list str) :
  ws <> [] -> Forall is_word ws -> starts_nonspace (join SP ws).
Proof.
  intros Hne Hall. destruct ws as [|x ws]; [congruence|].
  inversion Hall; subst. destruct ws.
  - now apply word_starts.
  - change (join SP (x :: s :: ws)) with (x ++ SP ++ join SP (s :: ws)).
    now apply starts_nonspace_app, word_starts.
Qed.

Lemma join_ends (ws : list str) :
  ws <> [] -> Forall is_word ws -> starts_nonspace (rev (join SP ws)).
Proof.
  intros Hne Hall. induction Hall as [|x ws Hx Hws IH]; [congruence|].
  destruct ws as [|y ws].
  - now apply word_ends.
  - change (join SP (x :: y :: ws)) with (x ++ SP ++ join SP (y :: ws)).
    rewrite !rev_app_distr, <- app_assoc.
    apply starts_nonspace_app, IH. congruence.
Qed.

Lemma join_nonempty (ws : list str) :
  ws <> [] -> Forall is_word ws -> join SP ws <> [].
Proof.
  intros Hne Hall E. pose proof (join_starts ws Hne Hall) as H.
  now rewrite E in H.
Qed.

(** ** The chunker's loop keeps its invariant *)

Lemma flush_open (cs : list str) (g : list str) :
  g <> [] -> flush cs g = cs ++ [join SP g].
Proof. destruct g; [congruence|reflexivity]. Qed.

Lemma chunker_inv_init (B : Z) :
  chunker_inv B [] {| chunks := []; current_chunk := []; current_length := 0 |}.
Proof. exists []. simpl. repeat split; auto. Qed.

Lemma chunker_inv_step (B : Z) (pre : list str) (st : chunker) (word : str) :
  chunker_inv B pre st -> chunker_inv B (pre ++ [word]) (chunk_step B st word).
Proof.
  intros (gs & Hcs & Hgs & Hpre & Hlen & Hcur). unfold chunk_step.
  destruct (current_length st + (len word + 1) >? B) eqn:Hover.
  - destruct Hcur as [Hnil|Hok].
    + exists gs. cbn [chunks current_chunk current_length].
      rewrite Hnil in *. cbn [flush truthy].
      rewrite app_nil_r in Hpre. subst pre.
      repeat split; auto.
      * simpl. lia.
      * right. split; [congruence|]. right. now exists word.
    + exists (gs ++ [current_chunk st]).
      cbn [chunks current_chunk current_length].
      rewrite flush_open by apply Hok.
      rewrite map_app, Hcs, concat_app. cbn [map concat].
      rewrite app_nil_r, Hpre.
      repeat split; auto.
      * apply Forall_app. split; [assumption|]. now constructor.
      * simpl. lia.
      * right. split; [congruence|]. right. now exists word.
  - exists gs. cbn [chunks current_chunk current_length].
    rewrite app_assoc, Hpre, cost_app, Hlen.
    repeat split; auto.
    + simpl. lia.
    + right. split.
      * destruct (current_chunk st); simpl; congruence.
      * left. rewrite cost_app. cbn [cost].
        rewrite Z.gtb_ltb, Z.ltb_ge in Hover. lia.
Qed.

Lemma chunker_inv_fold (B : Z) (ws pre : list str) (st : chunker) :
  chunker_inv B pre st ->
  chunker_inv B (pre ++ ws) (fold_left (chunk_step B) ws st).
Proof.
  revert pre st. induction ws as [|w ws IH]; intros pre st H.
  - now rewrite app_nil_r.
  - cbn [fold_left].
    replace (pre ++ w :: ws) with ((pre ++ [w]) ++ ws)
      by now rewrite <- app_assoc.
    now apply IH, chunker_inv_step.
Qed.

(** The chunks are the renderings of groups of words that partition the
    words of the text. *)
Lemma chunk_text_groups (text : str) (B : Z) :
  exists gs,
    chunk_text text B = map (join SP) gs /\
    Forall (group_ok B) gs /\
    concat gs = split text.
Proof.
  unfold chunk_text.
  destruct (chunker_inv_fold B (split text) [] _ (chunker_inv_init B))
    as (gs & Hcs & Hgs & Hpre & _ & Hcur).
  cbn [app] in Hpre. cbv zeta.
  destruct Hcur as [Hnil|Hok].
  - exists gs. rewrite Hnil in *. cbn [flush truthy].
    rewrite app_nil_r in Hpre. auto.
  - eexists (gs ++ [current_chunk _]).
    rewrite flush_open by apply Hok.
    rewrite map_app, Hcs, concat_app. cbn [map concat]. rewrite app_nil_r.
    repeat split; auto.
    apply Forall_app. split; [assumption|]. now constructor.
Qed.

Lemma group_ok_nonempty (B : Z) (gs : list (list str)) :
  Forall (group_ok B) gs -> Forall (fun g => g <> []) gs.
Proof. apply Forall_impl. now intros g [H _]. Qed.

Lemma Forall_concat_inv {A} (P : A -> Prop) (gs : list (list A)) :
  Forall P (concat gs) -> Forall (Forall P) gs.
Proof.
  induction gs as [|g gs IH]; simpl; [constructor|].
  intros H. apply Forall_app in H. destruct H. constructor; auto.
Qed.

(** Every group of the chunker is made of words of the text. *)
Lemma groups_of_words (text : str) (gs : list (list str)) :
  concat gs = split text -> Forall (Forall is_word) gs.
Proof.
  intros H. apply Forall_concat_inv. rewrite H. apply split_words.
Qed.

Lemma map_split_join (gs : list (list str)) :
  Forall (Forall is_word) gs -> map split (map (join SP) gs) = gs.
Proof.
  induction 1 as [|g gs Hg Hgs IH]; [reflexivity|].
  cbn [map]. now rewrite split_join, IH.
Qed.

(** Every chunk renders one group of words of the text. *)
Lemma chunk_In (text : str) (B : Z) (c : str) :
  In c (chunk_text text B) ->
  exists g,
    c = join SP g /\ group_ok B g /\ Forall is_word g /\
    (forall w, In w g -> In w (split text)).
Proof.
  destruct (chunk_text_groups text B) as (gs & Hc & Hok & Hcat).
  rewrite Hc. intros Hin. apply in_map_iff in Hin.
  destruct Hin as (g & <- & Hg). exists g.
  pose proof (groups_of_words text gs Hcat) as Hw.
  rewrite Forall_forall in Hok, Hw.
  repeat split; auto; try apply Hok; auto.
  intros w Hwg. rewrite <- Hcat. apply in_concat. eauto.
Qed.

(** ** A chunk is no longer than the trimmed text *)

Lemma split_spaces (t : str) :
  Forall (fun c => isspace c = true) t -> split t = [].
Proof.
  induction 1 as [|c t Hc Ht IH]; [reflexivity|]. now rewrite split_space.
Qed.

(** Whitespace at the end of a text adds no word. *)
Lemma split_app_spaces (u t : str) :
  Forall (fun c => isspace c = true) t -> split (u ++ t) = split u.
Proof.
  intros Ht. induction u as [|c u IH]; [now apply split_spaces|].
  cbn [app split]. destruct (isspace c); [exact IH|].
  destruct u as [|d u].
  - cbn [app]. destruct Ht as [|e t He Ht]; [reflexivity|].
    rewrite He. now rewrite split_spaces by now constructor.
  - cbn [app] in *. destruct (isspace d); now rewrite IH.
Qed.

Lemma split_lstrip (s : str) : split (lstrip s) = split s.
Proof.
  induction s as [|c s IH]; [reflexivity|].
  cbn [lstrip]. destruct (isspace c) eqn:Hc; [|reflexivity].
  now rewrite split_space.
Qed.

(** [lstrip] removes a run of whitespace from the front. *)
Lemma lstrip_prefix (s : str) :
  exists t, s = t ++ lstrip s /\ Forall (fun c => isspace c = true) t.
Proof.
  induction s as [|c s (t & Hs & Ht)]; [now exists []|].
  cbn [lstrip]. destruct (isspace c) eqn:Hc.
  - exists (c :: t). split; [cbn; congruence|now constructor].
  - now exists [].
Qed.

(** [rstrip] removes a run of whitespace from the back. *)
Lemma rstrip_suffix (s : str) :
  exists t, s = rstrip s ++ t /\ Forall (fun c => isspace c = true) t.
Proof.
  destruct (lstrip_prefix (rev s)) as (t & Hs & Ht).
  exists (rev t). split; [|now apply Forall_rev].
  unfold rstrip. rewrite <- rev_app_distr, <- Hs. now rewrite rev_involutive.
Qed.

Lemma split_rstrip (s : str) : split (rstrip s) = split s.
Proof.
  destruct (rstrip_suffix s) as (t & Hs & Ht).
  rewrite Hs at 2. now rewrite split_app_spaces.
Qed.

Lemma split_strip (s : str) : split (strip s) = split s.
Proof. unfold strip. now rewrite split_rstrip, split_lstrip. Qed.

Lemma len_strip_le (s : str) : len (strip s) <= len s.
Proof.
  destruct (lstrip_prefix s) as (t & Hs & _).
  destruct (rstrip_suffix (lstrip s)) as (u & Hu & _).
  fold (strip s) in Hu.
  apply (f_equal len) in Hs, Hu. rewrite len_app in Hs, Hu.
  pose proof (len_nonneg t). pose proof (len_nonneg u). lia.
Qed.

(** The words of a text and their separators fit in the text and one
    more character, and in the text itself when it starts with
    whitespace. *)
Lemma cost_split_edge (s : str) :
  cost (split s) <= len s + 1 /\
  (forall c s', s = c :: s' -> isspace c = true -> cost (split s) <= len s).
Proof.
  induction s as [|c s [IH1 IH2]]; [split; [cbn; lia|discriminate]|].
  rewrite len_cons. cbn [split]. destruct (isspace c) eqn:Hc.
  - split; [lia|]. intros; lia.
  - split; [|intros e s' [= <- <-]; congruence].
    destruct s as [|d s]; [cbn; lia|].
    destruct (isspace d) eqn:Hd.
    + specialize (IH2 d s eq_refl Hd). cbn [cost]. change (len [c]) with 1. lia.
    + destruct (split (d :: s)) as [|w ws].
      * cbn [cost]. change (len [c]) with 1.
        rewrite len_cons. pose proof (len_nonneg s). lia.
      * cbn [cost] in *. rewrite len_cons. lia.
Qed.

(** The words of a text, joined by single spaces, are no longer than
    the trimmed text. *)
Lemma cost_split_strip (s : str) : cost (split s) - 1 <= len (strip s).
Proof.
  rewrite <- (split_strip s). pose proof (cost_split_edge (strip s)). lia.
Qed.

Lemma cost_concat_In (g : list str) (gs : list (list str)) :
  In g gs -> cost g <= cost (concat gs).
Proof.
  induction gs as [|h gs IH]; cbn [In concat]; [tauto|].
  rewrite cost_app.
  pose proof (cost_nonneg h). pose proof (cost_nonneg (concat gs)).
  intros [->|Hin]; [lia|]. specialize (IH Hin). lia.
Qed.

Lemma chunk_len_le_text (text : str) (B : Z) (c : str) :
  In c (chunk_text text B) -> len c <= len (strip text).
Proof.
  destruct (chunk_text_groups text B) as (gs & Hc & Hok & Hcat).
  rewrite Hc. intros Hin. apply in_map_iff in Hin.
  destruct Hin as (g & <- & Hg).
  rewrite Forall_forall in Hok. destruct (Hok g Hg) as [Hne _].
  rewrite len_join by assumption.
  pose proof (cost_concat_In g gs Hg) as Hle. rewrite Hcat in Hle.
  pose proof (cost_split_strip text). lia.
Qed.

(** A text with a chunk of at least 50 characters once trimmed passes
    the first test of [summarize_text]. *)
Lemma viable_chunk_viable_text (text : str) (B : Z) (c : str) :
  In c (chunk_text text B) -> 50 <= len (strip c) -> 50 <= len (strip text).
Proof.
  intros Hin Hc. pose proof (chunk_len_le_text text B c Hin).
  pose proof (len_strip_le c). lia.
Qed.

(** ** The chunker: losslessness, budget, shape of the chunks *)

(** C1. The chunks of a text, joined with single spaces, tokenise to the
    words of the text, the same words in the same order; so do the
    chunks taken one after the other.  This holds for every budget, the
    positive ones among them. *)
Theorem chunk_text_lossless (text : str) (B : Z) :
  split (join SP (chunk_text text B)) = split text /\
  concat (map split (chunk_text text B)) = split text.
Proof.
  destruct (chunk_text_groups text B) as (gs & Hc & Hok & Hcat).
  pose proof (groups_of_words text gs Hcat) as Hw.
  rewrite Hc. split.
  - rewrite join_groups by (eapply group_ok_nonempty; eassumption).
    rewrite Hcat. apply split_join, split_words.
  - now rewrite map_split_join.
Qed.

(** C2. Every chunk is at most [B] characters long, unless it is a
    single word longer than [B]; every word of the text longer than [B]
    is a chunk by itself; and a word of 2000 letters under the budget
    1024 gives that word as the only chunk. *)
Theorem chunk_text_budget :
  (forall (text : str) (B : Z),
      Forall (fun c => len c <= B \/ (split c = [c] /\ B < len c))
             (chunk_text text B)) /\
  (forall (text : str) (B : Z) (w : str),
      In w (split text) -> B < len w -> In w (chunk_text text B)) /\
  chunk_text (repeat 97%N 2000) 1024 = [repeat 97%N 2000].
Proof.
  split; [|split].
  - intros text B. apply Forall_forall. intros c Hin.
    destruct (chunk_In text B c Hin) as (g & -> & [Hne Hfit] & Hw & _).
    destruct Hfit as [Hfit|(w & ->)].
    + left. rewrite len_join by assumption. lia.
    + cbn [join]. destruct (Z_le_gt_dec (len w) B) as [Hle|Hgt]; [now left|].
      right. split; [|lia].
      change w with (join SP [w]) at 1. now apply split_join.
  - intros text B w Hin Hlong.
    destruct (chunk_text_groups text B) as (gs & Hc & Hok & Hcat).
    rewrite <- Hcat in Hin. apply in_concat in Hin.
    destruct Hin as (g & Hg & Hwg).
    rewrite Forall_forall in Hok. destruct (Hok g Hg) as [_ [Hfit|(v & ->)]].
    + pose proof (cost_In w g Hwg). lia.
    + destruct Hwg as [->|[]]. rewrite Hc.
      change w with (join SP [w]). now apply in_map.
  - vm_compute. reflexivity.
Qed.

(** C10. Every chunk is a non-empty string that holds at least one
    word, has no whitespace at either end, and is its own words joined
    by single spaces. *)
Theorem chunk_text_shape (text : str) (B : Z) :
  Forall (fun c => c <> [] /\ split c <> [] /\ strip c = c /\
                   join SP (split c) = c)
         (chunk_text text B).
Proof.
  apply Forall_forall. intros c Hin.
  destruct (chunk_In text B c Hin) as (g & -> & [Hne _] & Hw & _).
  rewrite split_join by assumption.
  repeat split; auto.
  - now apply join_nonempty.
  - apply strip_tight; [now apply join_starts|now apply join_ends].
Qed.

(** ** The summariser: how a run unfolds *)

Section Run.

Variable summarizer : primitive.
Variables max_length min_length : Z.

Lemma after_nothing (w : world) : after w [] 0 = w.
Proof.
  destruct w as [cs k]. unfold after. cbn [calls warnings].
  now rewrite app_nil_r, Nat.add_0_r.
Qed.

Lemma after_after (w : world) (cs cs' : list str) (k k' : nat) :
  after (after w cs k) cs' k' = after w (cs ++ cs') (k + k').
Proof.
  unfold after. cbn [calls warnings]. now rewrite app_assoc, Nat.add_assoc.
Qed.

Lemma invoke_run (text : str) (w : world) :
  invoke summarizer text max_length min_length w =
  match summarizer (length (calls w)) text max_length min_length with
  | Success s => (Return s, after w [text] 0)
  | SummarizationFailure => (Raise, after w [text] 0)
  end.
Proof.
  unfold invoke, after. rewrite Nat.add_0_r. reflexivity.
Qed.

Lemma calls_after_one (w : world) (c : str) (k : nat) :
  length (calls (after w [c] k)) = S (length (calls w)).
Proof. unfold after. cbn [calls]. rewrite length_app. simpl. lia. Qed.

Lemma st_warning_run (w : world) : st_warning w = (Return tt, after w [] 1).
Proof.
  unfold st_warning, after. now rewrite app_nil_r, Nat.add_1_r.
Qed.

(** One iteration of the loop, by the fate of its chunk. *)
Lemma summarize_chunk_run (summaries : list str) (chunk : str) (w : world) :
  summarize_chunk summarizer max_length min_length summaries chunk w =
  if len (strip chunk) <? 50 then (Return summaries, w)
  else match summarizer (length (calls w)) chunk max_length min_length with
       | Success s => (Return (summaries ++ [s]), after w [chunk] 0)
       | SummarizationFailure => (Return summaries, after w [chunk] 1)
       end.
Proof.
  unfold summarize_chunk. destruct (len (strip chunk) <? 50); [reflexivity|].
  unfold try_except, bind. rewrite invoke_run.
  destruct (summarizer (length (calls w)) chunk max_length min_length);
    [reflexivity|].
  rewrite st_warning_run, after_after. reflexivity.
Qed.

(** The whole loop: it returns, with the contributions of the chunks
    appended in order, after the calls the chunks caused. *)
Lemma summarize_chunks_run (chunks summaries : list str) (w : world) :
  summarize_chunks summarizer max_length min_length chunks summaries w =
  let fs := fates summarizer max_length min_length (length (calls w)) chunks in
  (Return (summaries ++ produced fs), after w (invoked chunks fs) (failed fs)).
Proof.
  revert summaries w. induction chunks as [|chunk rest IH]; intros summaries w.
  - cbn. now rewrite app_nil_r, after_nothing.
  - cbn [summarize_chunks fates]. unfold bind. rewrite summarize_chunk_run.
    destruct (len (strip chunk) <? 50).
    + rewrite IH. reflexivity.
    + destruct (summarizer (length (calls w)) chunk max_length min_length)
        as [s|].
      * rewrite IH. cbv zeta. rewrite calls_after_one, after_after.
        unfold produced. cbn [flat_map contribution].
        now rewrite <- app_assoc.
      * rewrite IH. cbv zeta. rewrite calls_after_one, after_after.
        reflexivity.
Qed.

Lemma precheck_pass (text : str) :
  50 <= len (strip text) ->
  negb (truthy text) || (len (strip text) <? 50) = false.
Proof.
  intros H. destruct text as [|c text]; [vm_compute in H; congruence|].
  cbn [truthy negb orb]. apply Z.ltb_ge. exact H.
Qed.

Lemma precheck_fail (text : str) :
  text = [] \/ len (strip text) < 50 ->
  negb (truthy text) || (len (strip text) <? 50) = true.
Proof.
  intros [->|H]; [reflexivity|].
  apply orb_true_iff. right. now apply Z.ltb_lt.
Qed.

Lemma short_input_run (text : str) (w : world) :
  text = [] \/ len (strip text) < 50 ->
  summarize_text text summarizer max_length min_length w = (Return TOO_SHORT, w).
Proof.
  intros H. unfold summarize_text. now rewrite (precheck_fail text H).
Qed.

(** A text that passes the first test goes through the loop and then
    through the combining part. *)
Lemma summarize_text_run (text : str) (w : world) :
  50 <= len (strip text) ->
  summarize_text text summarizer max_length min_length w =
  let chunks := chunk_text text 1024 in
  let fs := fates summarizer max_length min_length (length (calls w)) chunks in
  combine summarizer max_length min_length (produced fs)
          (after w (invoked chunks fs) (failed fs)).
Proof.
  intros H. unfold summarize_text. rewrite (precheck_pass text H).
  unfold bind. rewrite summarize_chunks_run. reflexivity.
Qed.

(** The combining part, case by case. *)
Lemma combine_run (summaries : list str) (w : world) :
  combine summarizer max_length min_length summaries w =
  match summaries with
  | [] => (Return UNABLE, w)
  | _ :: _ =>
      if len (split (join SP summaries)) >? 200 then
        match summarizer (length (calls w)) (join SP summaries)
                         max_length min_length with
        | Success s => (Return s, after w [join SP summaries] 0)
        | SummarizationFailure =>
            (Return (join SP summaries), after w [join SP summaries] 0)
        end
      else (Return (join SP summaries), w)
  end.
Proof.
  unfold combine. destruct summaries as [|s ss]; [reflexivity|].
  cbn [truthy]. cbv zeta.
  destruct (len (split (join SP (s :: ss))) >? 200); [|reflexivity].
  unfold try_except. rewrite invoke_run.
  destruct (summarizer _ _ max_length min_length); reflexivity.
Qed.

(** ** Facts about the fates of the chunks *)

Lemma fates_skipped (chunks : list str) :
  forall n,
    Forall2 (fun c f => f = Skipped <-> len (strip c) < 50)
            chunks (fates summarizer max_length min_length n chunks).
Proof.
  induction chunks as [|c cs IH]; intros n; cbn [fates]; [constructor|].
  destruct (len (strip c) <? 50) eqn:E.
  - constructor; [|apply IH]. apply Z.ltb_lt in E. tauto.
  - apply Z.ltb_ge in E.
    destruct (summarizer n c max_length min_length);
      (constructor; [|apply IH]); (split; [discriminate|lia]).
Qed.

Lemma fates_app (cs1 cs2 : list str) :
  forall n,
    fates summarizer max_length min_length n (cs1 ++ cs2) =
    fates summarizer max_length min_length n cs1 ++
    fates summarizer max_length min_length
          (n + length (invoked cs1
                         (fates summarizer max_length min_length n cs1)))
          cs2.
Proof.
  induction cs1 as [|c cs IH]; intros n.
  - cbn. now rewrite Nat.add_0_r.
  - cbn [app fates]. destruct (len (strip c) <? 50).
    + cbn [invoked invocations app]. now rewrite IH.
    + destruct (summarizer n c max_length min_length);
        cbn [invoked invocations app length];
        rewrite IH, Nat.add_succ_r; reflexivity.
Qed.

Lemma produced_app (fs gs : list fate) :
  produced (fs ++ gs) = produced fs ++ produced gs.
Proof. unfold produced. apply flat_map_app. Qed.

(** When only short chunks come, nothing is produced and nothing is
    called. *)
Lemma fates_all_short (chunks : list str) :
  Forall (fun c => len (strip c) < 50) chunks ->
  forall n,
    produced (fates summarizer max_length min_length n chunks) = [] /\
    invoked chunks (fates summarizer max_length min_length n chunks) = [] /\
    failed (fates summarizer max_length min_length n chunks) = 0%nat.
Proof.
  induction 1 as [|c cs Hc Hcs IH]; intros n; [now cbn|].
  cbn [fates]. apply Z.ltb_lt in Hc. rewrite Hc. apply IH.
Qed.

(** A produced summary comes from a call that succeeded. *)
Lemma produced_by_success (chunks : list str) :
  forall n,
    produced (fates summarizer max_length min_length n chunks) <> [] ->
    exists i c s,
      nth_error (invoked chunks
                   (fates summarizer max_length min_length n chunks)) i
      = Some c /\
      summarizer (n + i)%nat c max_length min_length = Success s.
Proof.
  induction chunks as [|c cs IH]; intros n; cbn [fates]; [now cbn|].
  destruct (len (strip c) <? 50); [apply IH|].
  destruct (summarizer n c max_length min_length) as [s|] eqn:E.
  - intros _. exists 0%nat, c, s. rewrite Nat.add_0_r. now split.
  - intros H. destruct (IH (S n) H) as (i & d & s & Hi & Hs).
    exists (S i), d, s. rewrite Nat.add_succ_r. now split.
Qed.

(** Only chunks of at least 50 characters once trimmed are called on. *)
Lemma invoked_viable (chunks : list str) (c : str) :
  forall n,
    In c (invoked chunks (fates summarizer max_length min_length n chunks)) ->
    In c chunks /\ 50 <= len (strip c).
Proof.
  induction chunks as [|d cs IH]; intros n; cbn [fates]; [now cbn|].
  destruct (len (strip d) <? 50) eqn:E.
  - cbn [invoked invocations app]. intros H. destruct (IH n H).
    split; [now right|assumption].
  - apply Z.ltb_ge in E.
    destruct (summarizer n d max_length min_length);
      cbn [invoked invocations app];
      (intros [<-|H]; [split; [now left|assumption]|]);
      destruct (IH (S n) H); (split; [now right|assumption]).
Qed.

(** When a chunk of a text is summarised, the text passes the first
    test of [summarize_text]. *)
Lemma produced_viable_text (text : str) (n : nat) :
  produced (fates summarizer max_length min_length n (chunk_text text 1024))
  <> [] ->
  50 <= len (strip text).
Proof.
  intros Hne.
  destruct (produced_by_success _ _ Hne) as (i & c & s & Hi & _).
  apply nth_error_In in Hi. apply invoked_viable in Hi. destruct Hi as [Hin Hc].
  exact (viable_chunk_viable_text text 1024 c Hin Hc).
Qed.

Lemma summaries_viable_text (text : str) (w : world)
    (summaries : list str) (w1 : world) :
  summarize_chunks summarizer max_length min_length (chunk_text text 1024) [] w
  = (Return summaries, w1) ->
  summaries <> [] ->
  50 <= len (strip text).
Proof.
  rewrite summarize_chunks_run. cbv zeta. intros [= <- _] Hne.
  cbn [app] in Hne. now apply produced_viable_text in Hne.
Qed.

(** The combining part only adds calls. *)
Lemma combine_extends (summaries : list str) (w : world) :
  exists r cs,
    combine summarizer max_length min_length summaries w
    = (Return r, after w cs 0).
Proof.
  rewrite combine_run. destruct summaries as [|s ss].
  - exists UNABLE, []. now rewrite after_nothing.
  - destruct (len (split (join SP (s :: ss))) >? 200).
    + destruct (summarizer _ _ max_length min_length); eauto.
    + eexists _, []. now rewrite after_nothing.
Qed.

End Run.

(** ** The summariser: the claims *)

(** C6. A text that is empty, or shorter than 50 characters once
    trimmed, gets the too-short message, and the primitive is not
    called: the world is left as it was. *)
Theorem short_input_fast_path (text : str) (summarizer : primitive)
    (max_length min_length : Z) (w : world) :
  text = [] \/ len (strip text) < 50 ->
  summarize_text text summarizer max_length min_length w = (Return TOO_SHORT, w).
Proof.
  apply short_input_run.
Qed.

Lemma short_input_fast_path_witness :
  summarize_text (lit "hi") verbose 130 30 idle = (Return TOO_SHORT, idle).
Proof.
  apply (short_input_fast_path (lit "hi") verbose 130 30 idle).
  right. vm_compute. reflexivity.
Defined.

(** C7. The loop over the chunks returns to its caller whatever the
    primitive does.  Each chunk has one fate, in order: a chunk shorter
    than 50 characters once trimmed is skipped, it causes no call and
    contributes nothing; any other chunk causes one call, and
    contributes the summary when the call succeeds and nothing when it
    fails; the chunks after a failure are processed all the same. *)
Theorem per_chunk_phase (summarizer : primitive) (max_length min_length : Z)
    (chunks : list str) (summaries : list str) (w : world) :
  let fs := fates summarizer max_length min_length (length (calls w)) chunks in
  Forall2 (fun c f => f = Skipped <-> len (strip c) < 50) chunks fs /\
  summarize_chunks summarizer max_length min_length chunks summaries w =
    (Return (summaries ++ flat_map contribution fs),
     {| calls := calls w ++ invoked chunks fs;
        warnings := warnings w + failed fs |}).
Proof.
  split; [apply fates_skipped|]. apply summarize_chunks_run.
Qed.

(** C9. The text made of two one-letter words a hundred spaces apart
    passes the first test, its only chunk is three characters long, and
    whatever the primitive is, the run returns the no-summary message
    without calling it. *)
Theorem unable_without_any_call :
  exists text : str,
    50 <= len (strip text) /\
    Forall (fun c => len (strip c) < 50) (chunk_text text 1024) /\
    forall (summarizer : primitive) (max_length min_length : Z) (w : world),
      summarize_text text summarizer max_length min_length w
      = (Return UNABLE, w).
Proof.
  exists sparse_text.
  assert (Hlong : 50 <= len (strip sparse_text)) by (vm_compute; congruence).
  assert (Hshort : Forall (fun c => len (strip c) < 50)
                          (chunk_text sparse_text 1024)).
  { change (chunk_text sparse_text 1024) with [lit "a b"].
    constructor; [|constructor]. vm_compute. reflexivity. }
  split; [exact Hlong|]. split; [exact Hshort|].
  intros summarizer a b w. rewrite summarize_text_run by assumption. cbv zeta.
  destruct (fates_all_short summarizer a b _ Hshort (length (calls w)))
    as (-> & -> & ->).
  now rewrite combine_run, after_nothing.
Qed.

(** C3, as worded, fails on the text "hi" with a primitive that always
    fails: the only chunk is too short and no call succeeds, yet the run
    returns the too-short message, not the no-summary one. *)
Lemma no_summary_claim_fails_on_hi :
  ~ no_summary_claim (lit "hi") always_fails 130 30 idle.
Proof.
  intros [_ H].
  assert (Hpre : Forall (fun c => len (strip c) < 50)
                        (chunk_text (lit "hi") 1024)).
  { change (chunk_text (lit "hi") 1024) with [lit "hi"].
    constructor; [|constructor]. vm_compute. reflexivity. }
  specialize (H (or_introl Hpre)). vm_compute in H. discriminate H.
Qed.

(** C3, amended.  Whatever the text and whatever the primitive does,
    [summarize_text] returns a string and raises nothing.  For a text
    that passes the first test (at least 50 characters once trimmed):
    when every chunk is too short, or every call the run makes fails,
    the string returned is the no-summary message. *)
Theorem summarize_text_degrades (text : str) (summarizer : primitive)
    (max_length min_length : Z) (w : world) :
  let run := summarize_text text summarizer max_length min_length w in
  (exists s w', run = (Return s, w')) /\
  (50 <= len (strip text) ->
   Forall (fun c => len (strip c) < 50) (chunk_text text 1024) \/
   every_call_fails summarizer max_length min_length w (snd run) ->
   fst run = Return UNABLE).
Proof.
  cbv zeta. split.
  - destruct (Z_lt_ge_dec (len (strip text)) 50) as [Hs|Hl].
    + rewrite short_input_run by (now right). eauto.
    + rewrite summarize_text_run by lia. cbv zeta.
      match goal with
      | |- context [combine ?p ?a ?b ?ss ?w1] =>
          destruct (combine_extends p a b ss w1) as (r & cs & ->)
      end.
      eauto.
  - intros Hl Hpre. rewrite summarize_text_run by assumption. cbv zeta.
    set (chunks := chunk_text text 1024) in *.
    set (fs := fates summarizer max_length min_length (length (calls w)) chunks).
    destruct (produced fs) as [|s ss] eqn:Hp; [now rewrite combine_run|].
    exfalso. destruct Hpre as [Hshort|Hfail].
    + destruct (fates_all_short summarizer max_length min_length chunks Hshort
                  (length (calls w))) as (Hnil & _).
      fold fs in Hnil. congruence.
    + destruct (produced_by_success summarizer max_length min_length chunks
                  (length (calls w))) as (i & c & t & Hi & Ht).
      { fold fs. congruence. }
      fold fs in Hi.
      rewrite summarize_text_run in Hfail by assumption. cbv zeta in Hfail.
      fold chunks fs in Hfail.
      destruct (combine_extends summarizer max_length min_length (produced fs)
                  (after w (invoked chunks fs) (failed fs)))
        as (r & cs & Hrun).
      rewrite Hrun in Hfail. cbn [snd] in Hfail.
      enough (Success t = SummarizationFailure) by discriminate.
      rewrite <- Ht. apply Hfail. unfold after. cbn [calls].
      rewrite <- !app_assoc. rewrite nth_error_app2 by lia.
      replace (length (calls w) + i - length (calls w))%nat with i by lia.
      rewrite nth_error_app1; [exact Hi|].
      apply nth_error_Some. congruence.
Qed.

Lemma summarize_text_degrades_witness :
  fst (summarize_text long_word always_fails 130 30 idle) = Return UNABLE.
Proof.
  apply (summarize_text_degrades long_word always_fails 130 30 idle).
  - vm_compute. congruence.
  - right. intros i c _. reflexivity.
Defined.

(** C4. Let the loop over the chunks of a text end with at least one
    summary.  When the combined summary has more than 200 words, the run
    makes exactly one more call, on the combined summary, and returns
    what that call returns when it succeeds.  When it has 200 words or
    fewer, the run returns the combined summary and makes no further
    call. *)
Theorem collapse_once (text : str) (summarizer : primitive)
    (max_length min_length : Z) (w : world)
    (summaries : list str) (w1 : world) :
  summarize_chunks summarizer max_length min_length (chunk_text text 1024) [] w
  = (Return summaries, w1) ->
  summaries <> [] ->
  let combined_summary := join SP summaries in
  let run := summarize_text text summarizer max_length min_length w in
  (200 < len (split combined_summary) ->
   calls (snd run) = calls w1 ++ [combined_summary] /\
   warnings (snd run) = warnings w1 /\
   forall s,
     summarizer (length (calls w1)) combined_summary max_length min_length
     = Success s ->
     fst run = Return s) /\
  (len (split combined_summary) <= 200 ->
   run = (Return combined_summary, w1)).
Proof.
  intros Hloop Hne. cbv zeta.
  pose proof (summaries_viable_text _ _ _ _ _ _ _ Hloop Hne) as Hl.
  unfold summarize_text.
  rewrite (precheck_pass text Hl). unfold bind. rewrite Hloop, combine_run.
  destruct summaries as [|s0 ss]; [congruence|].
  split; intros Hwc.
  - apply Z.gtb_lt in Hwc. rewrite Hwc.
    destruct (summarizer (length (calls w1)) (join SP (s0 :: ss))
                max_length min_length) as [t|];
      cbn [fst snd after calls warnings]; rewrite Nat.add_0_r;
      (split; [reflexivity|split; [reflexivity|]]); intros s E;
      congruence.
  - destruct (len (split (join SP (s0 :: ss))) >? 200) eqn:E; [|reflexivity].
    apply Z.gtb_lt in E. lia.
Qed.

Lemma collapse_once_witness :
  calls (snd (summarize_text long_word verbose 130 30 idle))
  = [long_word; verbose_text] /\
  fst (summarize_text long_word verbose 130 30 idle) = Return verbose_text.
Proof.
  destruct (collapse_once long_word verbose 130 30 idle
              [verbose_text] (after idle [long_word] 0)) as [Hmore _].
  - vm_compute. reflexivity.
  - congruence.
  - destruct Hmore as (Hcalls & _ & Hret); [vm_compute; reflexivity|].
    split; [exact Hcalls|]. apply Hret. reflexivity.
Defined.

(** C5. When the call on the combined summary is made and fails, the
    run returns the combined summary as it was, and raises nothing. *)
Theorem collapse_failure_falls_back (text : str) (summarizer : primitive)
    (max_length min_length : Z) (w : world)
    (summaries : list str) (w1 : world) :
  summarize_chunks summarizer max_length min_length (chunk_text text 1024) [] w
  = (Return summaries, w1) ->
  summaries <> [] ->
  200 < len (split (join SP summaries)) ->
  summarizer (length (calls w1)) (join SP summaries) max_length min_length
  = SummarizationFailure ->
  summarize_text text summarizer max_length min_length w
  = (Return (join SP summaries),
     {| calls := calls w1 ++ [join SP summaries]; warnings := warnings w1 |}).
Proof.
  intros Hloop Hne Hwc Hfail.
  pose proof (summaries_viable_text _ _ _ _ _ _ _ Hloop Hne) as Hl.
  unfold summarize_text.
  rewrite (precheck_pass text Hl). unfold bind. rewrite Hloop, combine_run.
  destruct summaries as [|s0 ss]; [congruence|].
  apply Z.gtb_lt in Hwc. rewrite Hwc, Hfail.
  unfold after. now rewrite Nat.add_0_r.
Qed.

Lemma collapse_failure_falls_back_witness :
  summarize_text long_word verbose_once 130 30 idle
  = (Return verbose_text,
     {| calls := [long_word; verbose_text]; warnings := 0 |}).
Proof.
  apply (collapse_failure_falls_back long_word verbose_once 130 30 idle
           [verbose_text] (after idle [long_word] 0)).
  - vm_compute. reflexivity.
  - congruence.
  - vm_compute. reflexivity.
  - reflexivity.
Defined.

(** C8. The summaries of a concatenation of chunks are those of the
    first chunks followed by those of the last ones, so they stand in
    the order of their chunks.  For a text that gets at least one
    summary, the combined summary is those summaries, one per chunk
    summarised with success and in chunk order, joined by single spaces:
    it is what the run returns when it has at most 200 words, and what
    the last call is made on, and what is returned if that call fails,
    when it has more. *)
Theorem combined_summary_in_order (summarizer : primitive)
    (max_length min_length : Z) :
  (forall (n : nat) (cs1 cs2 : list str),
      let fs1 := fates summarizer max_length min_length n cs1 in
      flat_map contribution
        (fates summarizer max_length min_length n (cs1 ++ cs2))
      = flat_map contribution fs1 ++
        flat_map contribution
          (fates summarizer max_length min_length
                 (n + length (invoked cs1 fs1)) cs2)) /\
  (forall (text : str) (w : world),
      let chunks := chunk_text text 1024 in
      let fs := fates summarizer max_length min_length (length (calls w)) chunks in
      let w1 := {| calls := calls w ++ invoked chunks fs;
                   warnings := warnings w + failed fs |} in
      let combined_summary := join SP (flat_map contribution fs) in
      flat_map contribution fs <> [] ->
      summarize_text text summarizer max_length min_length w =
      if len (split combined_summary) >? 200 then
        match summarizer (length (calls w1)) combined_summary
                         max_length min_length with
        | Success s =>
            (Return s,
             {| calls := calls w1 ++ [combined_summary];
                warnings := warnings w1 |})
        | SummarizationFailure =>
            (Return combined_summary,
             {| calls := calls w1 ++ [combined_summary];
                warnings := warnings w1 |})
        end
      else (Return combined_summary, w1)).
Proof.
  split.
  - intros n cs1 cs2. cbv zeta. rewrite fates_app. apply produced_app.
  - intros text w. cbv zeta. intros Hne.
    pose proof (produced_viable_text _ _ _ _ _ Hne) as Hl.
    rewrite summarize_text_run by assumption. cbv zeta. rewrite combine_run.
    unfold produced in *.
    destruct (flat_map contribution
                (fates summarizer max_length min_length (length (calls w))
                       (chunk_text text 1024))) as [|s ss] eqn:Hp;
      [congruence|].
    unfold after. cbn [calls warnings]. rewrite !Nat.add_0_r. reflexivity.
Qed.

Lemma combined_summary_in_order_witness :
  summarize_text two_chunk_text numbered 130 30 idle
  = (Return (lit "first second"),
     {| calls := chunk_text two_chunk_text 1024; warnings := 0 |}).
Proof.
  apply (proj2 (combined_summary_in_order numbered 130 30) two_chunk_text idle).
  vm_compute. congruence.
Defined.

(** ** The chunker, group by group *)

Lemma fold_pack (B : Z) (ws : list str) (st : chunker) :
  flush (chunks (fold_left (chunk_step B) ws st))
        (current_chunk (fold_left (chunk_step B) ws st))
  = chunks st
    ++ map (join SP) (pack B (current_chunk st) (current_length st) ws).
Proof.
  revert st. induction ws as [|w ws IH]; intros st.
  - cbn [fold_left pack]. destruct (current_chunk st); cbn [flush truthy map].
    + now rewrite app_nil_r.
    + reflexivity.
  - cbn [fold_left pack]. rewrite IH. unfold chunk_step.
    destruct (current_length st + (len w + 1) >? B);
      cbn [chunks current_chunk current_length]; [|reflexivity].
    destruct (current_chunk st); cbn [flush truthy app]; [reflexivity|].
    rewrite <- app_assoc. reflexivity.
Qed.

Lemma chunk_text_pack (text : str) (B : Z) :
  chunk_text text B = map (join SP) (pack B [] 0 (split text)).
Proof. unfold chunk_text. cbv zeta. now rewrite fold_pack. Qed.

Lemma pack_concat (B : Z) (ws : list str) :
  forall cur n, concat (pack B cur n ws) = cur ++ ws.
Proof.
  induction ws as [|w ws IH]; intros cur n; cbn [pack].
  - destruct cur; cbn; now rewrite ?app_nil_r.
  - destruct (n + (len w + 1) >? B).
    + rewrite concat_app, IH. destruct cur; cbn; now rewrite ?app_nil_r.
    + rewrite IH. now rewrite <- app_assoc.
Qed.

Lemma pack_nonempty (B : Z) (ws : list str) :
  forall cur n, Forall (fun g => g <> []) (pack B cur n ws).
Proof.
  induction ws as [|w ws IH]; intros cur n; cbn [pack].
  - destruct cur; cbn; repeat constructor. congruence.
  - destruct (n + (len w + 1) >? B); [|apply IH].
    apply Forall_app. split; [|apply IH].
    destruct cur; cbn; repeat constructor. congruence.
Qed.

(** The first group of a packing starts with the open group. *)
Lemma pack_head (B : Z) (ws : list str) :
  forall cur n,
    cur <> [] ->
    exists more rest, pack B cur n ws = (cur ++ more) :: rest.
Proof.
  induction ws as [|w ws IH]; intros cur n Hne; cbn [pack].
  - destruct cur; [congruence|]. exists [], []. now rewrite app_nil_r.
  - destruct (n + (len w + 1) >? B).
    + destruct cur; [congruence|]. cbn [truthy app].
      eexists [], _. now rewrite app_nil_r.
    + destruct (IH (cur ++ [w]) (n + (len w + 1))) as (more & rest & ->).
      { destruct cur; cbn; congruence. }
      exists (w :: more), rest. now rewrite <- app_assoc.
Qed.

Lemma pack_greedy (B : Z) (ws : list str) :
  forall cur n, n = cost cur -> greedy B (pack B cur n ws).
Proof.
  induction ws as [|w ws IH]; intros cur n Hn; cbn [pack].
  - destruct cur; cbn; auto.
  - destruct (n + (len w + 1) >? B) eqn:Hover.
    + assert (Hw : len w + 1 = cost [w]) by (cbn; lia).
      specialize (IH [w] (len w + 1) Hw).
      destruct cur as [|c cur]; [exact IH|]. cbn [truthy app].
      destruct (pack_head B ws [w] (len w + 1)) as (more & rest & E);
        [congruence|].
      rewrite E in *. cbn [greedy app]. split; [|exact IH].
      apply Z.gtb_lt in Hover. lia.
    + apply IH. rewrite cost_app, Hn. cbn. lia.
Qed.

Lemma greedy_adjacent (B : Z) (l1 : list (list str)) :
  forall gs g1 g2 l2,
    greedy B gs -> gs = l1 ++ g1 :: g2 :: l2 ->
    exists w r, g2 = w :: r /\ B < cost g1 + (len w + 1).
Proof.
  induction l1 as [|g l1 IH]; intros gs g1 g2 l2 Hg ->.
  - cbn [app greedy] in Hg. destruct Hg as [Hg _].
    destruct g2 as [|w r]; [contradiction|]. eauto.
  - apply (IH (l1 ++ g1 :: g2 :: l2) g1 g2 l2); [|reflexivity].
    cbn [app] in Hg. destruct (l1 ++ g1 :: g2 :: l2) eqn:E.
    + destruct l1; discriminate.
    + cbn [greedy] in Hg. apply Hg.
Qed.

(** The groups of [pack] are groups of words of the text. *)
Lemma pack_words (text : str) (B : Z) :
  Forall (Forall is_word) (pack B [] 0 (split text)).
Proof.
  apply Forall_concat_inv. rewrite pack_concat. apply split_words.
Qed.

Lemma split_starts_word (c : char) (s : str) :
  isspace c = false -> split (c :: s) <> [].
Proof.
  intros Hc. cbn [split]. rewrite Hc. destruct s as [|d s]; [discriminate|].
  destruct (isspace d); [discriminate|].
  destruct (split (d :: s)); discriminate.
Qed.

Lemma split_nil_iff (s : str) :
  split s = [] <-> Forall (fun c => isspace c = true) s.
Proof.
  split; [|apply split_spaces].
  induction s as [|c s IH]; [constructor|].
  destruct (isspace c) eqn:Hc.
  - rewrite split_space by assumption. now constructor; [|apply IH].
  - intros E. now apply split_starts_word in E.
Qed.

Lemma word_len (w : str) : is_word w -> 1 <= len w.
Proof.
  intros [Hne _]. destruct w; [congruence|].
  rewrite len_cons. pose proof (len_nonneg w). lia.
Qed.

Lemma split_join_chunks (text : str) (B : Z) :
  split (join SP (chunk_text text B)) = split text.
Proof.
  destruct (chunk_text_groups text B) as (gs & -> & Hok & Hcat).
  rewrite join_groups by (eapply group_ok_nonempty; eassumption).
  rewrite Hcat. apply split_join, split_words.
Qed.

Lemma length_concat_nonempty {A} (gs : list (list A)) :
  Forall (fun g => g <> []) gs -> (length gs <= length (concat gs))%nat.
Proof.
  induction 1 as [|g gs Hg Hgs IH]; cbn [concat length]; [lia|].
  rewrite length_app. destruct g; [congruence|]. cbn [length]. lia.
Qed.

(** With a budget of 3 or less no two words fit together. *)
Lemma pack_tiny (B : Z) (ws : list str) :
  B <= 3 -> Forall is_word ws ->
  forall cur n,
    n = cost cur ->
    cur = [] \/ (exists v, cur = [v] /\ is_word v) ->
    pack B cur n ws
    = (if truthy cur then [cur] else []) ++ map (fun w => [w]) ws.
Proof.
  intros HB Hws. induction Hws as [|w ws Hw Hws IH]; intros cur n Hn Hcur.
  - cbn. now rewrite app_nil_r.
  - pose proof (word_len w Hw) as Hlw. cbn [pack map].
    assert (Hone : pack B [w] (len w + 1) ws = [w] :: map (fun w => [w]) ws).
    { rewrite IH; [reflexivity|cbn; lia|right; eauto]. }
    destruct Hcur as [->|(v & -> & Hv)].
    + cbn [cost truthy app] in *. subst n.
      destruct (0 + (len w + 1) >? B); [exact Hone|].
      rewrite IH; [reflexivity|cbn; lia|right; eauto].
    + pose proof (word_len v Hv) as Hlv. cbn [cost] in Hn.
      assert (Hover : (n + (len w + 1) >? B) = true)
        by (apply Z.gtb_lt; lia).
      rewrite Hover, Hone. reflexivity.
Qed.

(** Words that fit the budget together make one group. *)
Lemma pack_fits (B : Z) (ws : list str) :
  forall cur n,
    n = cost cur -> cost (cur ++ ws) <= B ->
    pack B cur n ws = if truthy (cur ++ ws) then [cur ++ ws] else [].
Proof.
  induction ws as [|w ws IH]; intros cur n Hn Hfit; cbn [pack].
  - now rewrite app_nil_r.
  - rewrite cost_app in Hfit. cbn [cost] in Hfit.
    pose proof (cost_nonneg ws).
    assert (Hin : (n + (len w + 1) >? B) = false).
    { rewrite Z.gtb_ltb. apply Z.ltb_ge. lia. }
    rewrite Hin, IH.
    + now rewrite <- app_assoc.
    + rewrite cost_app. cbn. lia.
    + rewrite <- app_assoc, cost_app. cbn [app cost]. lia.
Qed.

(** ** The chunker: further properties *)

(** X1. The chunks joined by single spaces are the text with every run
    of whitespace replaced by one space and the ends trimmed: character
    for character the words of the text joined by single spaces. *)
Theorem chunk_text_normalises (text : str) (B : Z) :
  join SP (chunk_text text B) = join SP (split text).
Proof.
  destruct (chunk_text_groups text B) as (gs & -> & Hok & Hcat).
  rewrite join_groups by (eapply group_ok_nonempty; eassumption).
  now rewrite Hcat.
Qed.

(** X2. [chunk_text] returns no chunk exactly when the text has no word:
    it is empty or made of whitespace only. *)
Theorem chunk_text_nil_iff (text : str) (B : Z) :
  chunk_text text B = [] <-> Forall (fun c => isspace c = true) text.
Proof.
  rewrite <- split_nil_iff. split.
  - destruct (chunk_text_groups text B) as (gs & -> & _ & <-).
    destruct gs; [reflexivity|discriminate].
  - intros E. unfold chunk_text. now rewrite E.
Qed.

(** X3. The chunker is greedy: a chunk is closed only when the first
    word of the next chunk, with its separator, would not fit the
    budget.  So two chunks in a row are together longer than the budget
    less two. *)
Theorem chunk_text_greedy (text : str) (B : Z) (l1 l2 : list str)
    (c1 c2 : str) :
  chunk_text text B = l1 ++ c1 :: c2 :: l2 ->
  (exists w ws, split c2 = w :: ws /\ B < (len c1 + 1) + (len w + 1)) /\
  B < len c1 + len c2 + 2.
Proof.
  rewrite chunk_text_pack. intros E.
  apply map_eq_app in E. destruct E as (k1 & k & Hpack & _ & E).
  apply map_eq_cons in E. destruct E as (g1 & k' & -> & Hc1 & E).
  apply map_eq_cons in E. destruct E as (g2 & k2 & -> & Hc2 & _).
  subst c1 c2.
  pose proof (pack_greedy B (split text) [] 0 eq_refl) as Hg.
  pose proof (pack_nonempty B (split text) [] 0) as Hne.
  pose proof (pack_words text B) as Hw.
  rewrite Hpack in Hg, Hne, Hw.
  destruct (greedy_adjacent B k1 _ g1 g2 k2 Hg eq_refl) as (w & r & -> & Hlt).
  apply Forall_app in Hne. destruct Hne as [_ Hne].
  apply Forall_app in Hw. destruct Hw as [_ Hw].
  inversion Hne as [|? ? Hg1 Hne']; subst.
  inversion Hw as [|? ? Hw1 Hw']; subst.
  inversion Hw' as [|? ? Hw2 _]; subst.
  rewrite split_join by assumption.
  rewrite !len_join by (assumption || discriminate).
  assert (len w + 1 <= cost (w :: r)).
  { cbn [cost]. pose proof (cost_nonneg r). lia. }
  split; [exists w, r; split; [reflexivity|lia]|lia].
Qed.

Lemma chunk_text_greedy_witness :
  (exists w ws, split (lit "brown fox") = w :: ws /\
                10 < (len (lit "the quick") + 1) + (len w + 1)) /\
  10 < len (lit "the quick") + len (lit "brown fox") + 2.
Proof.
  apply (chunk_text_greedy (lit "the quick  brown fox") 10 [] []).
  vm_compute. reflexivity.
Defined.

(** X4. The budget counts one separator per word, the last one
    included: a chunk of two words or more is at most [B - 1]
    characters long, and a chunk reaches [B] characters or more only by
    being a single word. *)
Theorem chunk_text_below_budget (text : str) (B : Z) :
  Forall (fun c => len c <= B - 1 \/ split c = [c]) (chunk_text text B).
Proof.
  apply Forall_forall. intros c Hin.
  destruct (chunk_In text B c Hin) as (g & -> & [Hne Hfit] & Hw & _).
  destruct Hfit as [Hfit|(w & ->)].
  - left. rewrite len_join by assumption. lia.
  - right. cbn [join]. change w with (join SP [w]) at 1.
    now apply split_join.
Qed.

(** X5. With a budget of 3 or less, zero and negative budgets among
    them, nothing fails and every word is a chunk of its own. *)
Theorem chunk_text_tiny_budget (text : str) (B : Z) :
  B <= 3 -> chunk_text text B = split text.
Proof.
  intros HB. rewrite chunk_text_pack.
  rewrite (pack_tiny B (split text) HB (split_words text) [] 0 eq_refl)
    by now left.
  cbn [truthy app]. rewrite map_map. cbn [join]. apply map_id.
Qed.

Lemma chunk_text_tiny_budget_witness :
  chunk_text (lit " a bc  d ") 0 = split (lit " a bc  d ").
Proof.
  apply (chunk_text_tiny_budget (lit " a bc  d ") 0). lia.
Defined.

(** X6. A text that has a word and whose normalised form is shorter
    than the budget comes back as one chunk, its normalised form. *)
Theorem chunk_text_single_chunk (text : str) (B : Z) :
  split text <> [] ->
  len (join SP (split text)) < B ->
  chunk_text text B = [join SP (split text)].
Proof.
  intros Hne Hfit. rewrite len_join in Hfit by assumption.
  rewrite chunk_text_pack, (pack_fits B (split text) [] 0 eq_refl)
    by (cbn [app]; lia).
  cbn [app]. destruct (split text); [congruence|reflexivity].
Qed.

Lemma chunk_text_single_chunk_witness :
  chunk_text (lit "  the quick  brown fox ") 1024
  = [join SP (split (lit "  the quick  brown fox "))].
Proof.
  apply (chunk_text_single_chunk (lit "  the quick  brown fox ") 1024).
  - vm_compute. congruence.
  - vm_compute. reflexivity.
Defined.

(** X7. Chunking never makes text: no chunk is longer than the trimmed
    text, and there are no more chunks than words. *)
Theorem chunk_text_bounds (text : str) (B : Z) :
  Forall (fun c => len c <= len (strip text)) (chunk_text text B) /\
  len (chunk_text text B) <= len (split text).
Proof.
  split.
  - apply Forall_forall. intros c. apply chunk_len_le_text.
  - rewrite chunk_text_pack. unfold len. rewrite length_map.
    pose proof (length_concat_nonempty _ (pack_nonempty B (split text) [] 0))
      as H.
    rewrite pack_concat in H. cbn [app] in H. lia.
Qed.

(** X8. Chunking is stable: the chunks of the joined chunks are the
    chunks. *)
Theorem chunk_text_idempotent (text : str) (B : Z) :
  chunk_text (join SP (chunk_text text B)) B = chunk_text text B.
Proof.
  unfold chunk_text at 1. rewrite split_join_chunks. reflexivity.
Qed.

(** ** The summariser: further properties *)

(** The calls of the loop are the chunks it does not skip. *)
Lemma invoked_filter (summarizer : primitive) (a b : Z) (chunks : list str) :
  forall n,
    invoked chunks (fates summarizer a b n chunks) = filter viable chunks.
Proof.
  induction chunks as [|c cs IH]; intros n; cbn [fates filter];
    [reflexivity|].
  unfold viable at 1. destruct (len (strip c) <? 50); cbn [negb].
  - cbn [invoked invocations app]. apply IH.
  - destruct (summarizer n c a b); cbn [invoked invocations app];
      now rewrite IH.
Qed.

(** What the echoing primitive produces: the chunks it is called on. *)
Lemma produced_echo (a b : Z) (chunks : list str) :
  forall n, produced (fates echo a b n chunks) = filter viable chunks.
Proof.
  induction chunks as [|c cs IH]; intros n; cbn [fates filter];
    [reflexivity|].
  unfold viable at 1. destruct (len (strip c) <? 50); cbn [negb].
  - apply IH.
  - cbn [echo]. unfold produced. cbn [flat_map contribution app].
    fold (produced (fates echo a b (S n) cs)). now rewrite IH.
Qed.

Lemma filter_all {A} (p : A -> bool) (l : list A) :
  forallb p l = true -> filter p l = l.
Proof.
  induction l as [|x l IH]; cbn [forallb filter]; [reflexivity|].
  intros H. apply andb_true_iff in H. destruct H as [-> H].
  now rewrite IH.
Qed.

(** X9. In a run on a text that passes the first test, the primitive is
    called on the chunks of at least 50 characters, on each once and in
    the order of the text, and after them at most once more.  Each of
    these chunks is at most 1023 characters long unless it is a single
    word: an over-long word reaches the primitive whole. *)
Theorem summarize_text_calls (text : str) (summarizer : primitive)
    (max_length min_length : Z) (w : world) :
  50 <= len (strip text) ->
  let run := summarize_text text summarizer max_length min_length w in
  let sent := filter viable (chunk_text text 1024) in
  (exists extra,
      calls (snd run) = calls w ++ sent ++ extra /\ len extra <= 1) /\
  Forall (fun c => 50 <= len c /\ (len c <= 1023 \/ split c = [c])) sent.
Proof.
  intros Hl. cbv zeta. split.
  - rewrite summarize_text_run by assumption. cbv zeta.
    rewrite invoked_filter, combine_run.
    match goal with |- context [produced ?fs] => destruct (produced fs) end.
    + exists []. cbn [snd after calls]. split; [|cbn; lia].
      now rewrite app_nil_r.
    + match goal with |- context [len (split ?s) >? 200] =>
        destruct (len (split s) >? 200)
      end.
      * match goal with |- context [summarizer ?n ?s ?a ?b] =>
          exists [s]; destruct (summarizer n s a b)
        end;
          cbn [snd after calls]; (split; [|cbn; lia]);
          now rewrite <- app_assoc.
      * exists []. cbn [snd after calls]. split; [|cbn; lia].
        now rewrite app_nil_r.
  - apply Forall_forall. intros c Hin. apply filter_In in Hin.
    destruct Hin as [Hin Hv]. unfold viable in Hv.
    apply negb_true_iff, Z.ltb_ge in Hv.
    pose proof (len_strip_le c). split; [lia|].
    destruct (chunk_In text 1024 c Hin) as (g & -> & [Hne Hfit] & Hw & _).
    destruct Hfit as [Hfit|(v & ->)].
    + left. rewrite len_join by assumption. lia.
    + right. cbn [join]. change v with (join SP [v]) at 1.
      now apply split_join.
Qed.

Lemma summarize_text_calls_witness :
  (exists extra,
      calls (snd (summarize_text two_chunk_text numbered 130 30 idle))
      = calls idle ++ filter viable (chunk_text two_chunk_text 1024) ++ extra
      /\ len extra <= 1) /\
  Forall (fun c => 50 <= len c /\ (len c <= 1023 \/ split c = [c]))
         (filter viable (chunk_text two_chunk_text 1024)).
Proof.
  apply (summarize_text_calls two_chunk_text numbered 130 30 idle).
  vm_compute. congruence.
Defined.

(** X10. With a primitive that returns its input, a run that sends at
    least one chunk returns the sent chunks joined by single spaces,
    whether or not the last call is made; when no chunk is skipped that
    is the text itself, normalised. *)
Theorem summarize_text_echo (text : str) (max_length min_length : Z)
    (w : world) :
  let sent := filter viable (chunk_text text 1024) in
  sent <> [] ->
  fst (summarize_text text echo max_length min_length w)
  = Return (join SP sent) /\
  (forallb viable (chunk_text text 1024) = true ->
   fst (summarize_text text echo max_length min_length w)
   = Return (join SP (split text))).
Proof.
  cbv zeta. intros Hne.
  assert (Hl : 50 <= len (strip text)).
  { destruct (filter viable (chunk_text text 1024)) as [|c l] eqn:E;
      [congruence|].
    assert (Hin : In c (filter viable (chunk_text text 1024)))
      by (rewrite E; now left).
    apply filter_In in Hin. destruct Hin as [Hin Hv]. unfold viable in Hv.
    apply negb_true_iff, Z.ltb_ge in Hv.
    exact (viable_chunk_viable_text text 1024 c Hin Hv). }
  assert (Hrun : fst (summarize_text text echo max_length min_length w)
                 = Return (join SP (filter viable (chunk_text text 1024)))).
  { rewrite summarize_text_run by assumption. cbv zeta.
    rewrite produced_echo, combine_run.
    destruct (filter viable (chunk_text text 1024)) as [|c l]; [congruence|].
    match goal with |- context [len (split ?s) >? 200] =>
      destruct (len (split s) >? 200)
    end; reflexivity. }
  split; [exact Hrun|].
  intros Hall. rewrite Hrun, (filter_all _ _ Hall).
  destruct (chunk_text_groups text 1024) as (gs & -> & Hok & Hcat).
  rewrite join_groups by (eapply group_ok_nonempty; eassumption).
  now rewrite Hcat.
Qed.

Lemma summarize_text_echo_witness :
  fst (summarize_text two_chunk_text echo 130 30 idle)
  = Return (join SP (filter viable (chunk_text two_chunk_text 1024))) /\
  (forallb viable (chunk_text two_chunk_text 1024) = true ->
   fst (summarize_text two_chunk_text echo 130 30 idle)
   = Return (join SP (split two_chunk_text))).
Proof.
  apply (summarize_text_echo two_chunk_text 130 30 idle).
  vm_compute. congruence.
Defined.

(** ** Codecs *)

Lemma option_map_cons_Some {A} (c : A) (o : option (list A)) (s : list A) :
  option_map (cons c) o = Some s -> exists s', o = Some s' /\ s = c :: s'.
Proof.
  destruct o as [s'|]; cbn; [|discriminate]. intros [= <-]. eauto.
Qed.

(** What one step of the UTF-8 decoder does when it succeeds: it takes
    between one and four bytes and gives one character. *)
Lemma utf8_decode_step (bs : bytes) (s : str) :
  bs <> [] -> utf8_decode bs = Some s ->
  exists taken rest c s',
    bs = taken ++ rest /\ (1 <= length taken <= 4)%nat /\
    utf8_decode rest = Some s' /\ s = c :: s'.
Proof.
  destruct bs as [|x0 r0]; [congruence|]. intros _. cbn [utf8_decode].
  cbv zeta. destruct (Byte.to_N x0 <? 128)%N.
  { intros H. apply option_map_cons_Some in H. destruct H as (s' & H & ->).
    exists [x0], r0. cbn [length]. eexists _, s'. repeat split; auto; lia. }
  destruct (Byte.to_N x0 <? 194)%N; [discriminate|].
  destruct (Byte.to_N x0 <? 224)%N.
  { destruct r0 as [|x1 r1]; [discriminate|].
    destruct (continuation (Byte.to_N x1)); [|discriminate].
    intros H. apply option_map_cons_Some in H. destruct H as (s' & H & ->).
    exists [x0; x1], r1. cbn [length]. eexists _, s'.
    repeat split; auto; lia. }
  destruct (Byte.to_N x0 <? 240)%N.
  { destruct r0 as [|x1 [|x2 r2]]; try discriminate.
    match goal with |- (if ?c then _ else _) = _ -> _ => destruct c end;
      [|discriminate].
    intros H. apply option_map_cons_Some in H. destruct H as (s' & H & ->).
    exists [x0; x1; x2], r2. cbn [length]. eexists _, s'.
    repeat split; auto; lia. }
  destruct (Byte.to_N x0 <? 245)%N; [|discriminate].
  destruct r0 as [|x1 [|x2 [|x3 r3]]]; try discriminate.
  match goal with |- (if ?c then _ else _) = _ -> _ => destruct c end;
    [|discriminate].
  intros H. apply option_map_cons_Some in H. destruct H as (s' & H & ->).
  exists [x0; x1; x2; x3], r3. cbn [length]. eexists _, s'.
  repeat split; auto; lia.
Qed.

(** Decoding UTF-8 gives at most one character per byte. *)
Lemma utf8_decode_length (n : nat) :
  forall bs s,
    (length bs <= n)%nat -> utf8_decode bs = Some s ->
    (length s <= length bs)%nat.
Proof.
  induction n as [|n IH]; intros bs s Hn H.
  - destruct bs; [|cbn in Hn; lia]. cbn in H. injection H as <-. cbn. lia.
  - destruct bs as [|x0 r0] eqn:E.
    + cbn in H. injection H as <-. cbn. lia.
    + rewrite <- E in *.
      destruct (utf8_decode_step bs s)
        as (taken & rest & c & s' & Hb & Ht & Hr & ->);
        [congruence|assumption|].
      assert (Hlen : length bs = (length taken + length rest)%nat)
        by (rewrite Hb; apply length_app).
      specialize (IH rest s'). cbn [length]. rewrite Hlen in *.
      assert (length s' <= length rest)%nat by (apply IH; [lia|assumption]).
      lia.
Qed.

(** ASCII bytes are valid UTF-8 and stand for themselves. *)
Lemma utf8_decode_ascii (bs : bytes) :
  Forall (fun b => (Byte.to_N b < 128)%N) bs ->
  utf8_decode bs = Some (map Byte.to_N bs).
Proof.
  induction 1 as [|b bs Hb Hbs IH]; [reflexivity|].
  cbn [utf8_decode map]. cbv zeta.
  apply N.ltb_lt in Hb. rewrite Hb, IH. reflexivity.
Qed.

(** ** [extract_text_from_txt] *)

(** X11. On a file that can be read, [extract_text_from_txt] always
    returns a text and shows no error: the UTF-8 decoding of the bytes
    when they are valid UTF-8, and otherwise one character per byte,
    with the number of the byte (Latin-1).  The third encoding is never
    reached.  The text has at most as many characters as the file has
    bytes. *)
Theorem extract_text_from_txt_readable (content : bytes) :
  exists text,
    extract_text_from_txt (Readable content) = (Some text, []) /\
    (utf8_decode content = Some text \/
     utf8_decode content = None /\ text = map Byte.to_N content) /\
    len text <= len content.
Proof.
  cbn [extract_text_from_txt try_encodings decode].
  destruct (utf8_decode content) as [text|] eqn:E.
  - exists text. split; [reflexivity|]. split; [now left|].
    pose proof (utf8_decode_length _ content text (le_n _) E).
    unfold len. lia.
  - exists (map Byte.to_N content). unfold latin1_decode.
    split; [reflexivity|]. split; [now right|].
    unfold len. rewrite length_map. lia.
Qed.

(** X12. A file of ASCII bytes is extracted as it is: the characters
    are the bytes. *)
Theorem extract_text_from_txt_ascii (content : bytes) :
  Forall (fun b => (Byte.to_N b < 128)%N) content ->
  extract_text_from_txt (Readable content)
  = (Some (map Byte.to_N content), []).
Proof.
  intros H. cbn [extract_text_from_txt try_encodings decode].
  now rewrite utf8_decode_ascii.
Qed.

Lemma extract_text_from_txt_ascii_witness :
  extract_text_from_txt (Readable (ascii_bytes "a b"))
  = (Some (map Byte.to_N (ascii_bytes "a b")), []).
Proof.
  apply (extract_text_from_txt_ascii (ascii_bytes "a b")).
  repeat constructor.
Defined.

(** ** Pages and paragraphs *)

(** Whitespace between two texts separates their words. *)
Lemma split_app_sep (a b : str) (c : char) :
  isspace c = true -> split (a ++ c :: b) = split a ++ split b.
Proof.
  intros Hc. induction a as [|x a IH].
  - cbn [app]. now rewrite split_space.
  - cbn [app split]. destruct (isspace x) eqn:Hx; [exact IH|].
    destruct a as [|d a].
    + cbn [app]. rewrite Hc, split_space by assumption. reflexivity.
    + cbn [app] in *. destruct (isspace d) eqn:Hd.
      * now rewrite IH.
      * rewrite IH. destruct (split (d :: a)) eqn:E; [|reflexivity].
        now apply split_starts_word in E.
Qed.

Lemma split_lines (texts : list str) :
  split (concat (map (fun t => t ++ NL) texts)) = concat (map split texts).
Proof.
  induction texts as [|t texts IH]; [reflexivity|].
  cbn [map concat]. rewrite <- app_assoc. cbn [NL app].
  rewrite split_app_sep by reflexivity. now rewrite IH.
Qed.

Lemma read_pages_all (texts : list str) :
  forall text,
    read_pages (map Some texts) text
    = Some (text ++ concat (map (fun t => t ++ NL) texts)).
Proof.
  induction texts as [|t texts IH]; intros text; cbn [map read_pages concat].
  - now rewrite app_nil_r.
  - rewrite IH. now rewrite <- app_assoc.
Qed.

Lemma read_pages_torn (pages : list (option str)) :
  In None pages -> forall text, read_pages pages text = None.
Proof.
  induction pages as [|[t|] pages IH]; cbn [In read_pages]; intros H text.
  - contradiction.
  - destruct H as [H|H]; [discriminate|]. now apply IH.
  - reflexivity.
Qed.

Lemma fold_paragraphs (paragraphs : list str) :
  forall text,
    fold_left (fun text paragraph => text ++ (paragraph ++ NL))
              paragraphs text
    = text ++ concat (map (fun t => t ++ NL) paragraphs).
Proof.
  induction paragraphs as [|t ps IH]; intros text; cbn [fold_left map concat].
  - now rewrite app_nil_r.
  - rewrite IH. now rewrite <- app_assoc.
Qed.

Lemma str_eqb_eq (s t : str) : str_eqb s t = true <-> s = t.
Proof.
  revert t. induction s as [|c s IH]; intros [|d t]; cbn [str_eqb];
    try (split; (discriminate || reflexivity)).
  rewrite andb_true_iff, N.eqb_eq, IH. split.
  - now intros [-> ->].
  - now intros [= -> ->].
Qed.

(** ** The extractors: properties *)

(** X13. A PDF is extracted whole or not at all.  When every page gives
    its text, the result is the page texts in order, a newline after
    each, and nothing is shown.  When one page raises, the texts of the
    other pages are lost with it: the result is [None] and the one
    error shown is the PDF one. *)
Theorem extract_text_from_pdf_all_or_nothing (lib : library)
    (file : file_obj) :
  (forall texts,
      PdfReader lib file = Some (map Some texts) ->
      extract_text_from_pdf lib file
      = (Some (concat (map (fun t => t ++ NL) texts)), [])) /\
  (forall pages,
      PdfReader lib file = Some pages -> In None pages ->
      extract_text_from_pdf lib file = (None, [st_error Error_reading_PDF])).
Proof.
  unfold extract_text_from_pdf. split.
  - intros texts ->. now rewrite read_pages_all.
  - intros pages -> Hin. now rewrite read_pages_torn.
Qed.

Lemma extract_text_from_pdf_all_or_nothing_witness :
  extract_text_from_pdf two_pages Unreadable
  = (Some (lit "first page" ++ NL ++ lit "second" ++ NL), []) /\
  extract_text_from_pdf torn_page Unreadable
  = (None, [st_error Error_reading_PDF]).
Proof.
  split.
  - apply (proj1 (extract_text_from_pdf_all_or_nothing two_pages Unreadable)
             [lit "first page"; lit "second"]).
    reflexivity.
  - apply (proj2 (extract_text_from_pdf_all_or_nothing torn_page Unreadable)
             [Some (lit "first page"); None]).
    + reflexivity.
    + right. now left.
Defined.

(** X14. The words of an extracted PDF or Word document are the words
    of its pages or paragraphs, in order: the newline put after each
    one separates words, so no word of the text runs over a page or
    paragraph break. *)
Theorem extracted_words (lib : library) (file : file_obj) :
  (forall texts,
      PdfReader lib file = Some (map Some texts) ->
      exists text,
        fst (extract_text_from_pdf lib file) = Some text /\
        split text = concat (map split texts)) /\
  (forall paragraphs,
      Document lib file = Some paragraphs ->
      exists text,
        extract_text_from_docx lib file = (Some text, []) /\
        split text = concat (map split paragraphs)).
Proof.
  split.
  - intros texts H. unfold extract_text_from_pdf.
    rewrite H, read_pages_all. cbn [fst app].
    eexists. split; [reflexivity|]. apply split_lines.
  - intros paragraphs H. unfold extract_text_from_docx.
    rewrite H, fold_paragraphs. cbn [app].
    eexists. split; [reflexivity|]. apply split_lines.
Qed.

Lemma extracted_words_witness :
  (exists text,
      fst (extract_text_from_pdf two_pages Unreadable) = Some text /\
      split text = [lit "first"; lit "page"; lit "second"]) /\
  (exists text,
      extract_text_from_docx two_pages Unreadable = (Some text, []) /\
      split text = [lit "one"; lit "two"; lit "words"]).
Proof.
  split.
  - apply (proj1 (extracted_words two_pages Unreadable)
             [lit "first page"; lit "second"]).
    reflexivity.
  - apply (proj2 (extracted_words two_pages Unreadable)
             [lit "one"; lit "two words"]).
    reflexivity.
Defined.

(** X15. [extract_text] gives a text only for the three media types,
    spelled exactly; for any other type it opens nothing, returns
    [None] and shows one error that names the type. *)
Theorem extract_text_supported (lib : library) (file : file_obj)
    (file_type : str) :
  (forall text,
      fst (extract_text lib file file_type) = Some text ->
      file_type = PDF \/ file_type = DOCX \/ file_type = TXT) /\
  (file_type <> PDF -> file_type <> DOCX -> file_type <> TXT ->
   forall lib', 
     extract_text lib' file file_type
     = (None, [st_error (Unsupported_file_type file_type)])).
Proof.
  unfold extract_text. split.
  - intros text.
    destruct (str_eqb file_type PDF) eqn:E1;
      [apply str_eqb_eq in E1; auto|].
    destruct (str_eqb file_type DOCX) eqn:E2;
      [apply str_eqb_eq in E2; auto|].
    destruct (str_eqb file_type TXT) eqn:E3;
      [apply str_eqb_eq in E3; auto|].
    discriminate.
  - intros H1 H2 H3 lib'.
    destruct (str_eqb file_type PDF) eqn:E1;
      [apply str_eqb_eq in E1; contradiction|].
    destruct (str_eqb file_type DOCX) eqn:E2;
      [apply str_eqb_eq in E2; contradiction|].
    destruct (str_eqb file_type TXT) eqn:E3;
      [apply str_eqb_eq in E3; contradiction|].
    reflexivity.
Qed.

Lemma extract_text_supported_witness :
  extract_text two_pages (Readable (ascii_bytes "a b")) (lit "TEXT/PLAIN")
  = (None, [st_error (Unsupported_file_type (lit "TEXT/PLAIN"))]).
Proof.
  apply (proj2 (extract_text_supported no_library
                  (Readable (ascii_bytes "a b")) (lit "TEXT/PLAIN")));
    vm_compute; congruence.
Defined.

(** ** The page *)

(** [summarize_text] returns, whatever the primitive does. *)
Lemma summarize_text_returns (text : str) (summarizer : primitive)
    (a b : Z) (w : world) :
  exists summary w',
    summarize_text text summarizer a b w = (Return summary, w').
Proof.
  destruct (Z_lt_ge_dec (len (strip text)) 50) as [Hs|Hl].
  - rewrite short_input_run by (now right). eauto.
  - rewrite summarize_text_run by lia. cbv zeta.
    match goal with
    | |- context [combine ?p ?a ?b ?ss ?w1] =>
        destruct (combine_extends p a b ss w1) as (r & cs & ->)
    end.
    eauto.
Qed.








(** X16. A run of the page leaves the world as it was, no call of the
    primitive and no warning, unless the model loaded, a file is in the
    uploader, its extraction gave a text of at least 50 characters once
    trimmed, and the button is pressed. *)
Theorem main_summarises_only_when (lib : library) (s : session) (w : world) :
  snd (main lib s w) <> w ->
  exists summarizer up text,
    pipeline s = Some summarizer /\
    uploaded_file s = Some up /\
    fst (extract_text lib (upload_file up) (upload_type up)) = Some text /\
    50 <= len (strip text) /\
    button_pressed s = true.
Proof.
  unfold main, load_summarizer.
  destruct (pipeline s) as [summarizer|]; [|cbn; congruence].
  destruct (uploaded_file s) as [up|]; [|cbn; congruence].
  destruct (extract_text lib (upload_file up) (upload_type up))
    as [[[|c text]|] extracting] eqn:E; try (cbn; congruence).
  destruct (button_pressed s); [|cbn; congruence].
  destruct (Z_lt_ge_dec (len (strip (c :: text))) 50) as [Hs|Hl].
  - rewrite short_input_run by (now right). cbn. congruence.
  - intros _. exists summarizer, up, (c :: text). rewrite E.
    repeat split; auto. lia.
Qed.

Lemma main_summarises_only_when_witness :
  exists summarizer up text,
    pipeline (pressed verbose TXT (repeat Byte.x61 60)) = Some summarizer /\
    uploaded_file (pressed verbose TXT (repeat Byte.x61 60)) = Some up /\
    fst (extract_text no_library (upload_file up) (upload_type up))
    = Some text /\
    50 <= len (strip text) /\
    button_pressed (pressed verbose TXT (repeat Byte.x61 60)) = true.
Proof.
  apply (main_summarises_only_when no_library
           (pressed verbose TXT (repeat Byte.x61 60)) idle).
  vm_compute. congruence.
Defined.

(** X17. When the model loaded, the extraction of the uploaded file
    gave a text that is not empty and the button is pressed, the run
    ends with the summary in the success box and with a download button
    that carries the same string, named after the file; the summary is
    what [summarize_text] returns for the extracted text and the values
    of the two sliders. *)
Theorem main_shows_summary (lib : library) (s : session) (w : world)
    (summarizer : primitive) (up : upload) (text : str) :
  pipeline s = Some summarizer ->
  uploaded_file s = Some up ->
  fst (extract_text lib (upload_file up) (upload_type up)) = Some text ->
  text <> [] ->
  button_pressed s = true ->
  exists summary shown,
    summarize_text text summarizer
                   (slider_max_length s) (slider_min_length s) w
    = (Return summary, snd (main lib s w)) /\
    fst (main lib s w)
    = shown ++ [st_subheader_summary;
                st_success summary;
                st_download_button
                  summary (upload_name up ++ lit "_summary.txt")].
Proof.
  intros Hp Hu He Hne Hb. unfold main, load_summarizer.
  rewrite Hp, Hu, Hb.
  destruct (extract_text lib (upload_file up) (upload_type up))
    as [extracted extracting].
  cbn [fst] in He. subst extracted.
  destruct text as [|c text]; [congruence|].
  destruct (summarize_text_returns (c :: text) summarizer
              (slider_max_length s) (slider_min_length s) w)
    as (summary & w' & E).
  rewrite E. cbn [fst snd]. eexists summary, _.
  split; [reflexivity|]. rewrite !app_assoc. reflexivity.
Qed.

Lemma main_shows_summary_witness :
  exists summary shown,
    summarize_text (repeat 97%N 60) verbose 130 30 idle
    = (Return summary,
       snd (main no_library (pressed verbose TXT (repeat Byte.x61 60)) idle))
    /\
    fst (main no_library (pressed verbose TXT (repeat Byte.x61 60)) idle)
    = shown ++ [st_subheader_summary;
                st_success summary;
                st_download_button summary (lit "notes_summary.txt")].
Proof.
  apply (main_shows_summary no_library
           (pressed verbose TXT (repeat Byte.x61 60)) idle verbose
           {| upload_name := lit "notes";
              upload_size := 60;
              upload_type := TXT;
              upload_file := Readable (repeat Byte.x61 60) |}
           (repeat 97%N 60)).
  - reflexivity.
  - reflexivity.
  - vm_compute. reflexivity.
  - discriminate.
  - reflexivity.
Defined.




